(** * build_art_data: validation, join and per-artist aggregation

    A shallow embedding of [build_art_data.py].  The script is a chain of
    pandas calls, so the development starts with a small model of the part of
    pandas it relies on (cells, frames, [pd.merge], [groupby] with [size],
    [sum], [mean] and [first], [to_csv] and [read_csv]) and then transcribes
    the five functions of the script on top of it. *)

From Stdlib Require Import QArith Qreduction Qabs Lqa.
From stdpp Require Import gmap strings pretty list fin_maps sorting.

Open Scope string_scope.
Open Scope list_scope.
Open Scope nat_scope.

(** ** Cells

    A cell of a frame is a missing value ([NaN]), a number or a text.
    A number is the value that the cell holds, a rational in lowest terms.
    The dtype of a column (int64 or float64) is not recorded: [10] and
    [10.0] are the same cell, and the upcast of an integer column that
    receives a missing value changes no cell.  Where pandas depends on more
    than the values, the model says so (see [Platform]). *)

Inductive cell :=
  | NaN
  | Num (q : Q)
  | Str (s : string).

#[global] Instance Q_eq_dec : EqDecision Q.
Proof. solve_decision. Defined.

#[global] Instance Q_countable : Countable Q.
Proof.
  refine (inj_countable' (λ q, (Qnum q, Qden q)) (λ p, Qmake p.1 p.2) _).
  by intros [].
Defined.

#[global] Instance cell_eq_dec : EqDecision cell.
Proof. solve_decision. Defined.

Definition cell_to_sum (c : cell) : unit + (Q + string) :=
  match c with
  | NaN => inl ()
  | Num q => inr (inl q)
  | Str s => inr (inr s)
  end.

Definition cell_of_sum (x : unit + (Q + string)) : cell :=
  match x with
  | inl _ => NaN
  | inr (inl q) => Num q
  | inr (inr s) => Str s
  end.

#[global] Instance cell_countable : Countable cell.
Proof. refine (inj_countable' cell_to_sum cell_of_sum _). by intros []. Defined.

#[global] Instance cell_inhabited : Inhabited cell := populate NaN.

(** [pd.isna] and [pd.notna]. *)
Definition isna (c : cell) : bool :=
  match c with NaN => true | _ => false end.

Definition notna (c : cell) : bool := negb (isna c).

(** A column that holds a text has dtype [object]. *)
Definition is_text (c : cell) : bool :=
  match c with Str _ => true | _ => false end.

Definition numeric_dtype (xs : list cell) : bool := forallb (λ c, negb (is_text c)) xs.

(** ** What the values do not determine

    Three results of pandas depend on the dtype of a column, on the
    rounding of float64 or on the spelling of a field, and a cell records
    none of them.  They are parameters of the development: every statement
    holds whatever they are.
    - [machine_sum ps] and [machine_mean ps]: the sum and the mean of the
      numbers [ps], in this order, as the machine computes them (the sum
      of an int64 column wraps around, that of a float64 column is
      rounded); [sum_] and [mean] resort to them where the exact result is
      not guaranteed;
    - [literal q]: the text of a field that parses to the number [q];
      [read_csv] keeps it when the column of the field holds a text. *)
Class Platform := {
  machine_sum : list Q → Q;
  machine_mean : list Q → Q;
  literal : Q → string;
}.

(** ** Exceptions and results *)

Inductive exn :=
  | KeyError (key : string)
  | ValueError (key : string)
  | FileNotFoundError (path : string)
  | EmptyDataError (path : string)
  | ParserError (path : string)
  | TypeError
  | OSError (path : string).

Inductive result (A : Type) :=
  | Ok (a : A)
  | Raise (e : exn).
Arguments Ok {A} a.
Arguments Raise {A} e.

#[global] Instance result_ret : MRet result := λ A a, Ok a.
#[global] Instance result_bind : MBind result := λ A B f m,
  match m with
  | Ok a => f a
  | Raise e => Raise e
  end.
#[global] Instance result_fmap : FMap result := λ A B f m,
  match m with
  | Ok a => Ok (f a)
  | Raise e => Raise e
  end.

#[global] Instance exn_eq_dec : EqDecision exn.
Proof. solve_decision. Defined.

(** ** Frames

    A [DataFrame] is its column labels and its rows, in order; a row holds
    one cell per column.  The row index is the default [RangeIndex]
    everywhere in the script, so it is the position in [rows]. *)

Abbreviation row := (list cell).

Record DataFrame := {
  columns : list string;
  rows : list row;
}.

#[global] Instance DataFrame_eq_dec : EqDecision DataFrame.
Proof. solve_decision. Defined.

(** Every row has one cell per column, as in the frame of a file whose
    records have one field per label. *)
Definition wf_frame (df : DataFrame) : Prop :=
  Forall (λ r : row, length r = length (columns df)) (rows df).

(** [Index.get_loc]: position of the first column with this label. *)
Fixpoint get_loc (key : string) (cols : list string) : option nat :=
  match cols with
  | [] => None
  | c :: cs => if decide (c = key) then Some 0%nat else S <$> get_loc key cs
  end.

Definition loc (key : string) (cols : list string) : result nat :=
  match get_loc key cols with
  | Some i => Ok i
  | None => Raise (KeyError key)
  end.

(** The cell of a row at a position. *)
Definition at_ (r : row) (i : nat) : cell := r !!! i.

(** [df[key]]: the cells of one column. *)
Definition getitem (df : DataFrame) (key : string) : result (list cell) :=
  i ← loc key (columns df);
  Ok ((λ r, at_ r i) <$> rows df).

(** [data[name]] on the dict of loaded frames. *)
Definition table (data : gmap string DataFrame) (name : string) : result DataFrame :=
  match data !! name with
  | Some df => Ok df
  | None => Raise (KeyError name)
  end.

(** [data[name][key]] *)
Definition column (data : gmap string DataFrame) (name key : string) : result (list cell) :=
  table data name ≫= λ df, getitem df key.

(** ** [pd.merge]

    [merge lhs rhs left_on right_on how suffixes] models
    [pd.merge(lhs, rhs, left_on=…, right_on=…, how=…, suffixes=…)] for a
    single key column on each side and [how] in [{'inner', 'left'}]
    ([sort=False]):
    - the key of the right frame is looked up first, then the key of the
      left frame ([KeyError]);
    - a key column that holds a text is not merged with one that holds
      numbers only ([ValueError]), unless one of the two has no cell;
    - the rows follow the order of the left keys; the matches of one left
      row come together, in the order of the right frame;
    - keys are compared as values, and a missing key matches a missing key;
    - when both keys carry the same label the right key column is dropped;
    - a label found on both sides (the shared key apart) receives the
      suffix of its side;
    - with [how='left'] a left row without match is kept once, padded with
      [NaN] on the right; the integer columns that receive a [NaN] become
      float64, which changes no cell (integers are exact in float64 up to
      [2^53]). *)

Inductive how := how_inner | how_left.

Definition overlap (lcols rcols : list string) (shared : option string) : list string :=
  filter (λ c, c ∈ rcols ∧ Some c ≠ shared) lcols.

Definition add_suffix (ov : list string) (sfx : string) (c : string) : string :=
  if decide (c ∈ ov) then c +:+ sfx else c.

(** The right-hand side without its key, when the key is shared. *)
Definition drop_key {A} (shared : option string) (ri : nat) (xs : list A) : list A :=
  match shared with
  | Some _ => delete ri xs
  | None => xs
  end.

Definition matching (li ri : nat) (l : row) (rrows : list row) : list row :=
  filter (λ r, at_ r ri = at_ l li) rrows.

Definition merge_block (h : how) (shared : option string) (li ri width : nat)
    (rrows : list row) (l : row) : list row :=
  match matching li ri l rrows with
  | [] =>
      match h with
      | how_inner => []
      | how_left => [l ++ replicate width NaN]
      end
  | ms => (λ r, l ++ drop_key shared ri r) <$> ms
  end.

(** The dtypes of two key columns cannot be merged: neither is empty, and
    one holds a text where the other holds none. *)
Definition key_conflict (lk rk : list cell) : bool :=
  negb (bool_decide (lk = [])) && negb (bool_decide (rk = []))
  && negb (eqb (numeric_dtype lk) (numeric_dtype rk)).

Definition merge (lhs rhs : DataFrame) (left_on right_on : string) (h : how)
    (suffixes : string * string) : result DataFrame :=
  ri ← loc right_on (columns rhs);
  li ← loc left_on (columns lhs);
  if key_conflict ((λ r, at_ r li) <$> rows lhs) ((λ r, at_ r ri) <$> rows rhs)
  then Raise (ValueError left_on) else
  let shared := if decide (left_on = right_on) then Some left_on else None in
  let ov := overlap (columns lhs) (columns rhs) shared in
  let rcols := drop_key shared ri (columns rhs) in
  Ok {| columns := (add_suffix ov suffixes.1 <$> columns lhs)
                   ++ (add_suffix ov suffixes.2 <$> rcols);
        rows := rows lhs ≫= merge_block h shared li ri (length rcols) (rows rhs) |}.

(** ** [merge_data] *)

Definition merge_data (data : gmap string DataFrame) : result DataFrame :=
  artwork ← table data "artwork";
  artist ← table data "artist";
  (* Merge artwork with artist *)
  df ← merge artwork artist "artist_id" "artist_id" how_inner ("_artwork", "_artist");
  (* Merge artwork with image_asset (primary image) *)
  image_asset ← table data "image_asset";
  df ← merge df image_asset "image_primary_id" "image_id" how_inner ("", "_image");
  (* Merge artwork with financials (may be multiple per artwork) *)
  artwork_financial ← table data "artwork_financial";
  merge df artwork_financial "artwork_id" "artwork_id" how_left ("", "_financial").

(** The frame after the two inner joins: the artworks that are retained. *)
Definition merge_inner (data : gmap string DataFrame) : result DataFrame :=
  artwork ← table data "artwork";
  artist ← table data "artist";
  df ← merge artwork artist "artist_id" "artist_id" how_inner ("_artwork", "_artist");
  image_asset ← table data "image_asset";
  merge df image_asset "image_primary_id" "image_id" how_inner ("", "_image").

(** ** The example of the specification *)

Module Sample.

Definition artist : DataFrame :=
  {| columns := ["artist_id"; "name"];
     rows := [[Num 1; Str "A"]] |}.

Definition artwork : DataFrame :=
  {| columns := ["artwork_id"; "artist_id"; "image_primary_id"; "title"];
     rows := [[Num 10; Num 1; Num 100; Str "T"]] |}.

Definition image_asset : DataFrame :=
  {| columns := ["image_id"; "artwork_id"; "storage_key"];
     rows := [[Num 100; Num 10; Str "k"]] |}.

Definition user : DataFrame :=
  {| columns := ["user_id"]; rows := [] |}.

Definition artwork_financial : DataFrame :=
  {| columns := ["id"; "artwork_id"; "price_amount"];
     rows := [[Str "e1"; Num 10; Num 500]; [Str "e2"; Num 10; Num 700]] |}.

Definition data : gmap string DataFrame :=
  <["artist" := artist]> (<["artwork" := artwork]> (<["image_asset" := image_asset]>
    (<["user" := user]> (<["artwork_financial" := artwork_financial]> ∅)))).

Definition enriched : DataFrame :=
  {| columns := ["artwork_id"; "artist_id"; "image_primary_id"; "title"; "name";
                 "image_id"; "artwork_id_image"; "storage_key"; "id"; "price_amount"];
     rows := [[Num 10; Num 1; Num 100; Str "T"; Str "A"; Num 100; Num 10; Str "k";
               Str "e1"; Num 500];
              [Num 10; Num 1; Num 100; Str "T"; Str "A"; Num 100; Num 10; Str "k";
               Str "e2"; Num 700]] |}.

End Sample.

(** ** [validate_links]

    [set(column)] and the difference of two such sets.  A missing value is
    a float [nan], which is unequal to every value, itself included, so a
    set finds it only by identity.  Iterating a numeric column makes a new
    float for each cell: the set keeps one [nan] per missing cell
    ([FloatNan i] for the cell at position [i]), and none of them is found
    in another set.  A column of dtype [object] holds the one object
    [np.nan] ([Obj NaN]). *)

Inductive member :=
  | Obj (c : cell)
  | FloatNan (pos : nat).

#[global] Instance member_eq_dec : EqDecision member.
Proof. solve_decision. Defined.

Definition member_to_sum (m : member) : cell + nat :=
  match m with Obj c => inl c | FloatNan i => inr i end.

Definition member_of_sum (x : cell + nat) : member :=
  match x with inl c => Obj c | inr i => FloatNan i end.

#[global] Instance member_countable : Countable member.
Proof. refine (inj_countable' member_to_sum member_of_sum _). by intros []. Defined.

Definition iter_value (numeric : bool) (i : nat) (c : cell) : member :=
  if numeric && isna c then FloatNan i else Obj c.

Definition set_ (xs : list cell) : gset member :=
  list_to_set (imap (iter_value (numeric_dtype xs)) xs).

Definition is_float_nan (v : member) : bool :=
  match v with FloatNan _ => true | Obj _ => false end.

Definition set_sub (a b : gset member) : gset member :=
  filter (λ v, is_float_nan v ∨ v ∉ b) a.

(** Truth value of a set: it is not empty. *)
Definition truthy (s : gset member) : bool := bool_decide (s ≠ ∅).

(** A warning is an f-string: a fixed text followed by the set it
    interpolates. *)
Record warning := {
  w_text : string;
  w_values : gset member;
}.

#[global] Instance warning_eq_dec : EqDecision warning.
Proof. solve_decision. Defined.

(** [set(a) - set(b)] for two columns. *)
Definition missing (a b : list cell) : gset member := set_sub (set_ a) (set_ b).

Definition append_if (c : bool) (warnings : list warning) (w : warning) : list warning :=
  if c then warnings ++ [w] else warnings.

Definition validate_links (data : gmap string DataFrame) : result (list warning) :=
  let warnings := [] in
  (* artwork.artist_id → artist.artist_id *)
  a ← column data "artwork" "artist_id";
  b ← column data "artist" "artist_id";
  let missing_artist := missing a b in
  let warnings := append_if (truthy missing_artist) warnings
    {| w_text := "artwork.artist_id missing in artist.artist_id: ";
       w_values := missing_artist |} in
  (* image_asset.artwork_id → artwork.artwork_id *)
  a ← column data "image_asset" "artwork_id";
  b ← column data "artwork" "artwork_id";
  let missing_artwork_img := missing a b in
  let warnings := append_if (truthy missing_artwork_img) warnings
    {| w_text := "image_asset.artwork_id missing in artwork.artwork_id: ";
       w_values := missing_artwork_img |} in
  (* artwork.image_primary_id → image_asset.image_id *)
  a ← column data "artwork" "image_primary_id";
  b ← column data "image_asset" "image_id";
  let missing_img_primary := missing a b in
  let warnings := append_if (truthy missing_img_primary) warnings
    {| w_text := "artwork.image_primary_id missing in image_asset.image_id: ";
       w_values := missing_img_primary |} in
  (* artwork_financial.artwork_id → artwork.artwork_id *)
  a ← column data "artwork_financial" "artwork_id";
  b ← column data "artwork" "artwork_id";
  let missing_artwork_fin := missing a b in
  let warnings := append_if (truthy missing_artwork_fin) warnings
    {| w_text := "artwork_financial.artwork_id missing in artwork.artwork_id: ";
       w_values := missing_artwork_fin |} in
  Ok warnings.

(** ** [groupby]

    [df.groupby(by)] with the defaults [sort=True] and [dropna=True]: the
    groups are the values of the key column that are not missing, in
    ascending order, and each group holds its rows in their original
    order.  Numbers sort before texts. *)

Definition cell_leb (a b : cell) : bool :=
  match a, b with
  | Num p, Num q => Qle_bool p q
  | Num _, _ => true
  | Str _, Num _ => false
  | Str s, Str t => String.leb s t
  | Str _, NaN => true
  | NaN, NaN => true
  | NaN, _ => false
  end.

Definition cell_le (a b : cell) : Prop := cell_leb a b = true.

#[global] Instance cell_le_dec : RelDecision cell_le.
Proof. intros a b. unfold cell_le. apply _. Defined.

Definition group_keys (keys : list cell) : list cell :=
  merge_sort cell_le (remove_dups (filter (λ k, k ≠ NaN) keys)).

Record GroupBy := {
  obj : DataFrame;
  by_ : string;
  groups : list (cell * list row);
}.

Definition groupby (df : DataFrame) (by' : string) : result GroupBy :=
  ki ← loc by' (columns df);
  let keys := group_keys ((λ r, at_ r ki) <$> rows df) in
  Ok {| obj := df; by_ := by';
        groups := (λ k, (k, filter (λ r, at_ r ki = k) (rows df))) <$> keys |}.

(** A frame or a series that carries the group keys as its index. *)
Record Indexed := {
  index_name : string;
  index : list cell;
  icolumns : list string;
  irows : list row;
}.

Definition Num_nat (n : nat) : cell := Num (inject_Z (Z.of_nat n)).

(** [GroupBy.size()]: the number of rows of each group. *)
Definition size_ (g : GroupBy) : Indexed :=
  {| index_name := by_ g; index := fst <$> groups g; icolumns := ["size"];
     irows := (λ kg : cell * list row, [Num_nat (length kg.2)]) <$> groups g |}.

(** [g[key]]: the groups restricted to one column. *)
Record SeriesGroupBy := {
  sobj : list cell;
  sname : string;
  sby : string;
  sgroups : list (cell * list cell);
}.

Definition select (g : GroupBy) (key : string) : result SeriesGroupBy :=
  i ← loc key (columns (obj g));
  Ok {| sobj := (λ r, at_ r i) <$> rows (obj g); sname := key; sby := by_ g;
        sgroups := (λ kg : cell * list row, (kg.1, (λ r, at_ r i) <$> kg.2)) <$> groups g |}.

(** [sum] and [mean] skip the missing values; the sum of none is [0] and
    the mean of none is [NaN].

    The sum of an int64 column wraps around at [2^63] and the sum of a
    float64 column is rounded; both are the exact sum when the numbers are
    integers whose magnitudes add up to [2^53] at most ([exact_sum]), since
    no partial sum leaves the range in which both dtypes are exact.  The
    mean is computed in float64, the sum divided by the count, and is exact
    when moreover the quotient is an integer ([exact_mean]).  Elsewhere the
    result is the one of the machine. *)
Definition as_number (c : cell) : option Q :=
  match c with Num q => Some q | _ => None end.

Definition numbers (xs : list cell) : list Q := omap as_number xs.

Definition Qsum (qs : list Q) : Q := foldr Qplus 0%Q qs.

Definition is_integer (q : Q) : bool := bool_decide (Qden (Qred q) = 1%positive).

Definition exact_sum (ps : list Q) : bool :=
  forallb is_integer ps && Qle_bool (Qsum (Qabs <$> ps)) (inject_Z (2 ^ 53)).

Definition exact_mean (ps : list Q) : bool :=
  exact_sum ps && is_integer (Qsum ps / inject_Z (Z.of_nat (length ps))).

Definition sum_ `{!Platform} (xs : list cell) : cell :=
  let ps := numbers xs in
  Num (if exact_sum ps then Qred (Qsum ps) else machine_sum ps).

Definition mean `{!Platform} (xs : list cell) : cell :=
  match numbers xs with
  | [] => NaN
  | ps =>
      Num (if exact_mean ps then Qred (Qsum ps / inject_Z (Z.of_nat (length ps)))
           else machine_mean ps)
  end.

(** [g[key].agg(['sum', 'mean'])]: a column of dtype [object] that holds
    texts makes the aggregation raise [TypeError]. *)
Definition agg_sum_mean `{!Platform} (s : SeriesGroupBy) : result Indexed :=
  if numeric_dtype (sobj s) then
    Ok {| index_name := sby s; index := fst <$> sgroups s; icolumns := ["sum"; "mean"];
          irows := (λ kg : cell * list cell, [sum_ kg.2; mean kg.2]) <$> sgroups s |}
  else Raise TypeError.

(** [g[key].first()]: the first value of each group that is not missing. *)
Definition first_valid (xs : list cell) : cell :=
  default NaN (head (filter (λ c, c ≠ NaN) xs)).

Definition first (s : SeriesGroupBy) : Indexed :=
  {| index_name := sby s; index := fst <$> sgroups s; icolumns := [sname s];
     irows := (λ kg : cell * list cell, [first_valid kg.2]) <$> sgroups s |}.

(** [Series.rename(name)] and [DataFrame.rename(columns={…})]. *)
Definition rename (name : string) (s : Indexed) : Indexed :=
  {| index_name := index_name s; index := index s; icolumns := [name];
     irows := irows s |}.

Definition rename_columns (m : gmap string string) (s : Indexed) : Indexed :=
  {| index_name := index_name s; index := index s;
     icolumns := (λ c, default c (m !! c)) <$> icolumns s;
     irows := irows s |}.

(** [pd.concat(pieces, axis=1)] for pieces that carry the same index, as
    the three pieces of [analyze_data] do: the rows are put side by
    side. *)
Definition hstack (a b : Indexed) : Indexed :=
  {| index_name := index_name a; index := index a;
     icolumns := icolumns a ++ icolumns b;
     irows := zip_with app (irows a) (irows b) |}.

Definition concat_axis1 (pieces : list Indexed) : Indexed :=
  match pieces with
  | [] => {| index_name := ""; index := []; icolumns := []; irows := [] |}
  | p :: ps => foldl hstack p ps
  end.

(** [reset_index()]: the index becomes the first column. *)
Definition reset_index (s : Indexed) : DataFrame :=
  {| columns := index_name s :: icolumns s;
     rows := zip_with cons (index s) (irows s) |}.

(** ** [analyze_data] *)

Definition analyze_data `{!Platform} (merged_df : DataFrame) : result DataFrame :=
  (* Count artworks per artist *)
  count_per_artist ← rename "artwork_count" ∘ size_ <$> groupby merged_df "artist_id";
  (* Total and average financial values per artist *)
  financial ← rename_columns {[ "sum" := "total_price"; "mean" := "avg_price" ]} <$>
    (groupby merged_df "artist_id" ≫= λ g, select g "price_amount" ≫= agg_sum_mean);
  (* Merge with artist name *)
  artist_names ← first <$> (groupby merged_df "artist_id" ≫= λ g, select g "name");
  let summary := reset_index (concat_axis1 [artist_names; count_per_artist; financial]) in
  Ok summary.

Definition summary_columns : list string :=
  ["artist_id"; "name"; "artwork_count"; "total_price"; "avg_price"].

(** ** The world of [main]: files, console and the storage device

    A CSV file is its lines: the header and one line per record.  A line
    is its fields, and a field is what it parses to by itself: nothing, a
    number, or a text that is no number.  Loading is assumed reliable; the
    device may refuse a write, which [write_budget] models: [Some n] lets
    [n] more write operations through (opening a file for writing and
    writing one line are one operation each) and fails the next one, [None]
    never fails. *)

Inductive line :=
  | Header (labels : list string)
  | Data (cells : row).

#[global] Instance line_eq_dec : EqDecision line.
Proof. solve_decision. Defined.

(** What [print] receives: texts and the values interpolated in them. *)
Inductive piece :=
  | Text (s : string)
  | Labels (cols : list string)
  | Warn (w : warning)
  | Frame (df : DataFrame).

Record world := {
  files : gmap string (list line);
  dirs : gset string;
  stdout : list (list piece);
  write_budget : option nat;
}.

Definition io (A : Type) : Type := world → result A * world.

#[global] Instance io_ret : MRet io := λ A a w, (Ok a, w).
#[global] Instance io_bind : MBind io := λ A B f m w,
  match m w with
  | (Ok a, w') => f a w'
  | (Raise e, w') => (Raise e, w')
  end.

(** A pure computation inside [main]: its exception propagates. *)
Definition lift {A} (r : result A) : io A := λ w, (r, w).

Definition print (msg : list piece) : io unit := λ w,
  (Ok (), {| files := files w; dirs := dirs w; stdout := stdout w ++ [msg];
             write_budget := write_budget w |}).

(** [for x in xs: body(x)] *)
Fixpoint for_ {A} (xs : list A) (body : A → io unit) : io unit :=
  match xs with
  | [] => mret ()
  | x :: xs' => body x ≫= λ _, for_ xs' body
  end.

(** [os.path.join] *)
Definition path_join (d f : string) : string := d +:+ "/" +:+ f.

Definition to_lines (df : DataFrame) : list line :=
  Header (columns df) :: (Data <$> rows df).

Definition line_cells (l : line) : row :=
  match l with
  | Header labels => Str <$> labels
  | Data cells => cells
  end.

(** The texts that [read_csv] reads as a missing value: its default
    [na_values]. *)
Definition na_values : list string :=
  [""; "#N/A"; "#N/A N/A"; "#NA"; "-1.#IND"; "-1.#QNAN"; "-NaN"; "-nan"; "1.#IND";
   "1.#QNAN"; "<NA>"; "N/A"; "NA"; "NULL"; "NaN"; "None"; "n/a"; "nan"; "null"].

Definition read_field (c : cell) : cell :=
  match c with
  | Str s => if bool_decide (s ∈ na_values) then NaN else c
  | _ => c
  end.

(** One dtype per column: when a field of the column is a text, the column
    has dtype [object] and its numeric fields stay the texts they are in
    the file. *)
Definition text_column (body : list row) (j : nat) : bool :=
  existsb (λ r, is_text (at_ r j)) body.

Definition as_text `{!Platform} (c : cell) : cell :=
  match c with
  | Num q => Str (literal q)
  | _ => c
  end.

Definition infer_dtypes `{!Platform} (body : list row) : list row :=
  (λ r, imap (λ j c, if text_column body j then as_text c else c) r) <$> body.

(** [pd.read_csv(path)]: the first line is the header. *)
Definition read_csv `{!Platform} (path : string) : io DataFrame := λ w,
  match files w !! path with
  | None => (Raise (FileNotFoundError path), w)
  | Some [] => (Raise (EmptyDataError path), w)
  | Some (Header labels :: body) =>
      (Ok {| columns := labels;
             rows := infer_dtypes (fmap read_field ∘ line_cells <$> body) |}, w)
  | Some (Data _ :: _) => (Raise (ParserError path), w)
  end.

(** [os.makedirs(path, exist_ok=True)] *)
Definition makedirs (path : string) : io unit := λ w,
  match files w !! path with
  | Some _ => (Raise (OSError path), w)
  | None =>
      (Ok (), {| files := files w; dirs := {[ path ]} ∪ dirs w; stdout := stdout w;
                 write_budget := write_budget w |})
  end.

(** One write operation on the device. *)
Definition device_write (path : string) (upd : gmap string (list line) → gmap string (list line))
    : io unit := λ w,
  match write_budget w with
  | Some O => (Raise (OSError path), w)
  | Some (S n) =>
      (Ok (), {| files := upd (files w); dirs := dirs w; stdout := stdout w;
                 write_budget := Some n |})
  | None =>
      (Ok (), {| files := upd (files w); dirs := dirs w; stdout := stdout w;
                 write_budget := None |})
  end.

(** [open(path, 'w')] truncates the file. *)
Definition open_w (path : string) : io unit :=
  device_write path (λ fs, <[path := []]> fs).

Definition write_line (path : string) (l : line) : io unit :=
  device_write path (λ fs, <[path := default [] (fs !! path) ++ [l]]> fs).

(** [df.to_csv(path, index=False)]: the file is opened for writing, which
    empties it, and the header and the records are written to it in
    place. *)
Definition to_csv (df : DataFrame) (path : string) : io unit :=
  open_w path ≫= λ _, for_ (to_lines df) (write_line path).

(** ** [load_data] *)

Definition load_files : list (string * string) :=
  [("artist", "artist.csv");
   ("artwork", "artwork.csv");
   ("image_asset", "image_asset.csv");
   ("user", "user.csv");
   ("artwork_financial", "artwork_financial.csv")].

Fixpoint load_loop `{!Platform} (data_dir : string) (items : list (string * string))
    (data : gmap string DataFrame) : io (gmap string DataFrame) :=
  match items with
  | [] => mret data
  | (key, fname) :: items' =>
      let path := path_join data_dir fname in
      df ← read_csv path;
      _ ← print [Text "Loaded "; Text key; Text ": columns="; Labels (columns df)];
      load_loop data_dir items' (<[key := df]> data)
  end.

Definition load_data `{!Platform} (data_dir : string) : io (gmap string DataFrame) :=
  load_loop data_dir load_files ∅.

(** ** [main] *)

Definition enriched_path : string := path_join "out" "artworks_enriched.csv".
Definition summary_path : string := path_join "out" "summary_by_artist.csv".

Definition main `{!Platform} : io unit :=
  data ← load_data ".";
  warnings ← lift (validate_links data);
  _ ← (if bool_decide (warnings ≠ []) then
         _ ← print [Text "Validation Warnings:"];
         for_ warnings (λ w, print [Text "-"; Warn w])
       else print [Text "All key relationships validated."]);
  merged_df ← lift (merge_data data);
  summary_df ← lift (analyze_data merged_df);
  (* Output directories *)
  let out_dir := "out" in
  _ ← makedirs out_dir;
  _ ← to_csv merged_df (path_join out_dir "artworks_enriched.csv");
  _ ← to_csv summary_df (path_join out_dir "summary_by_artist.csv");
  _ ← print [Text "\nSummary by artist:"];
  _ ← print [Frame summary_df];
  _ ← print [Text "\nSaved enriched data to "; Text (path_join out_dir "artworks_enriched.csv")];
  print [Text "Saved summary to "; Text (path_join out_dir "summary_by_artist.csv")].

Module SampleWorld.

Definition inputs : gmap string (list line) :=
  <["./artist.csv" := to_lines Sample.artist]>
  (<["./artwork.csv" := to_lines Sample.artwork]>
  (<["./image_asset.csv" := to_lines Sample.image_asset]>
  (<["./user.csv" := to_lines Sample.user]>
  (<["./artwork_financial.csv" := to_lines Sample.artwork_financial]> ∅)))).

Definition fresh (budget : option nat) : world :=
  {| files := inputs; dirs := ∅; stdout := []; write_budget := budget |}.

(** A prior run left its two artifacts. *)
Definition prior_enriched : list line :=
  [Header ["artwork_id"]; Data [Num 7]].

Definition prior_summary : list line :=
  [Header ["artist_id"]; Data [Num 3]].

Definition rerun (budget : option nat) : world :=
  {| files := <[enriched_path := prior_enriched]>
                (<[summary_path := prior_summary]> inputs);
     dirs := {[ "out" ]}; stdout := []; write_budget := budget |}.

End SampleWorld.

(** * Notions used in the statements *)

(** ** Rows and labels *)

(** The cell of a row under a label of its frame. *)
Definition field (df : DataFrame) (key : string) (r : row) : option cell :=
  at_ r <$> get_loc key (columns df).

(** A row of [df] without its cell under [key]: what [pd.merge] puts on the
    right when the key label is shared. *)
Definition without (df : DataFrame) (key : string) (r : row) : row :=
  match get_loc key (columns df) with
  | Some i => delete i r
  | None => r
  end.

Definition column_at (df : DataFrame) (i : nat) : list cell :=
  (λ r, at_ r i) <$> rows df.

Definition wf_data (data : gmap string DataFrame) : Prop :=
  map_Forall (λ _, wf_frame) data.

Definition remove_row (i : nat) (df : DataFrame) : DataFrame :=
  {| columns := columns df; rows := delete i (rows df) |}.

Definition is_Ok {A} (r : result A) : Prop := ∃ a, r = Ok a.

(** [s] ends with [sfx]. *)
Fixpoint string_drop (n : nat) (s : string) : string :=
  match n, s with
  | O, _ => s
  | S n', String _ s' => string_drop n' s'
  | S _, EmptyString => EmptyString
  end.

Definition ends_with (sfx s : string) : bool :=
  bool_decide (string_drop (String.length s - String.length sfx) s = sfx).

(** ** Joins *)

(** The rows [orows], cut to their first [n] cells, are the rows [lrows] in
    their order, each repeated a number of times (possibly none), the
    copies of a row next to each other. *)
Definition follows_left (n : nat) (lrows orows : list row) : Prop :=
  ∃ mult : row → nat, take n <$> orows = lrows ≫= λ l, replicate (mult l) l.

(** ** Groups *)

(** The rows of the group of [k], in their original order. *)
Definition group_rows (df : DataFrame) (ki : nat) (k : cell) : list row :=
  filter (λ r, at_ r ki = k) (rows df).

(** The row of the summary for the group of [k]. *)
Definition summary_row `{!Platform} (df : DataFrame) (ki pi ni : nat) (k : cell) : row :=
  let g := group_rows df ki k in
  [k; first_valid ((λ r, at_ r ni) <$> g); Num_nat (length g);
   sum_ ((λ r, at_ r pi) <$> g); mean ((λ r, at_ r pi) <$> g)].

(** The sum and the mean of the numbers [ps], as the summary reports
    them. *)
Definition total_of `{!Platform} (ps : list Q) : cell :=
  Num (if exact_sum ps then Qred (Qsum ps) else machine_sum ps).

Definition mean_of `{!Platform} (ps : list Q) : cell :=
  match ps with
  | [] => NaN
  | _ =>
      Num (if exact_mean ps then Qred (Qsum ps / inject_Z (Z.of_nat (length ps)))
           else machine_mean ps)
  end.

Definition wsum {A} (v : A → Q) (l : list A) : Q :=
  foldr (λ x acc, v x + acc)%Q 0%Q l.

(** What a cell adds to a sum. *)
Definition num_value (c : cell) : Q :=
  match c with Num q => q | _ => 0 end.

(** The prices that are present in the group of [k]. *)
Definition group_prices (df : DataFrame) (ki pi : nat) (k : cell) : list Q :=
  numbers ((λ r, at_ r pi) <$> group_rows df ki k).

(** The order in which values first occur: what "first-appearance order"
    says of the group keys. *)
Fixpoint first_appearance (ks : list cell) : list cell :=
  match ks with
  | [] => []
  | k :: ks' => k :: filter (λ x, x ≠ k) (first_appearance ks')
  end.

(** One column of the summary of the enriched frame of [data]. *)
Definition summary_column `{!Platform} (data : gmap string DataFrame) (key : string)
    : result (list cell) :=
  e ← merge_data data; s ← analyze_data e; getitem s key.

(** ** Relationships *)

(** The four relationships that [validate_links] checks, in its order: the
    text of the warning, the referencing column and the referenced one. *)
Definition relationships : list (string * (string * string) * (string * string)) :=
  [("artwork.artist_id missing in artist.artist_id: ",
    ("artwork", "artist_id"), ("artist", "artist_id"));
   ("image_asset.artwork_id missing in artwork.artwork_id: ",
    ("image_asset", "artwork_id"), ("artwork", "artwork_id"));
   ("artwork.image_primary_id missing in image_asset.image_id: ",
    ("artwork", "image_primary_id"), ("image_asset", "image_id"));
   ("artwork_financial.artwork_id missing in artwork.artwork_id: ",
    ("artwork_financial", "artwork_id"), ("artwork", "artwork_id"))].

Definition violations (data : gmap string DataFrame)
    (rel : string * (string * string) * (string * string)) : gset member :=
  match column data rel.1.2.1 rel.1.2.2, column data rel.2.1 rel.2.2 with
  | Ok a, Ok b => missing a b
  | _, _ => ∅
  end.

Definition violation_warning (data : gmap string DataFrame)
    (rel : string * (string * string) * (string * string)) : option warning :=
  if decide (violations data rel ≠ ∅)
  then Some {| w_text := rel.1.1; w_values := violations data rel |}
  else None.

(** What makes [v] an offending value of the referencing column [a] with
    respect to the referenced column [b]: a value of [a] that is set and is
    not a value of [b]; or a missing value of [a], which is offending
    wherever it stands when [a] is numeric, and unless [b] holds one too
    when both are columns of texts. *)
Definition offending (a b : list cell) (v : member) : Prop :=
  match v with
  | Obj NaN => (numeric_dtype a = false ∧ NaN ∈ a) ∧ ¬ (numeric_dtype b = false ∧ NaN ∈ b)
  | Obj c => c ∈ a ∧ c ∉ b
  | FloatNan i => numeric_dtype a = true ∧ a !! i = Some NaN
  end.

(** The seven columns that [validate_links] reads exist. *)
Definition has_key_columns (data : gmap string DataFrame) : Prop :=
  Forall (λ rel : string * (string * string) * (string * string),
            is_Ok (column data rel.1.2.1 rel.1.2.2) ∧ is_Ok (column data rel.2.1 rel.2.2))
         relationships.

(** ** Runs *)

Definition input_paths : list string := (λ kf, path_join "." kf.2) <$> load_files.

(** Two worlds hold the same five input files. *)
Definition inputs_agree (w1 w2 : world) : Prop :=
  ∀ p, p ∈ input_paths → files w1 !! p = files w2 !! p.

(** Nothing but the console changed. *)
Definition same_disk (w w' : world) : Prop :=
  files w' = files w ∧ dirs w' = dirs w ∧ write_budget w' = write_budget w.

(** A file that holds a proper part of the lines of [df]. *)
Definition partial_of (df : DataFrame) (f : option (list line)) : Prop :=
  ∃ ls, f = Some ls ∧ ls `prefix_of` to_lines df ∧ ls ≠ to_lines df.

(** The tail of [main], from [os.makedirs] on. *)
Definition write_outputs (merged_df summary_df : DataFrame) : io unit :=
  let out_dir := "out" in
  _ ← makedirs out_dir;
  _ ← to_csv merged_df (path_join out_dir "artworks_enriched.csv");
  _ ← to_csv summary_df (path_join out_dir "summary_by_artist.csv");
  _ ← print [Text "\nSummary by artist:"];
  _ ← print [Frame summary_df];
  _ ← print [Text "\nSaved enriched data to "; Text (path_join out_dir "artworks_enriched.csv")];
  print [Text "Saved summary to "; Text (path_join out_dir "summary_by_artist.csv")].

Definition after_load `{!Platform} (w : world) : world := (load_data "." w).2.

(** ** Exact arithmetic

    The platform on which the examples run: sums and means without
    rounding, and numbers spelled as fractions. *)
Definition exact_platform : Platform :=
  {| machine_sum := λ ps, Qred (Qsum ps);
     machine_mean := λ ps, Qred (Qsum ps / inject_Z (Z.of_nat (length ps)));
     literal := λ q,
       if decide (Qden q = 1%positive) then pretty (Qnum q)
       else pretty (Qnum q) +:+ "/" +:+ pretty (Zpos (Qden q)) |}.

(** ** More inputs *)

(** The frame of the example after the two inner joins, and its summary. *)
Definition sample_inner_row : row :=
  [Num 10; Num 1; Num 100; Str "T"; Str "A"; Num 100; Num 10; Str "k"].

Definition sample_inner : DataFrame :=
  {| columns := ["artwork_id"; "artist_id"; "image_primary_id"; "title"; "name";
                 "image_id"; "artwork_id_image"; "storage_key"];
     rows := [sample_inner_row] |}.

Definition sample_summary : DataFrame :=
  {| columns := summary_columns;
     rows := [[Num 1; Str "A"; Num 2; Num 1200; Num 600]] |}.

Module UnsetImage.

(** Artwork 11 has no primary image assigned. *)
Definition artwork : DataFrame :=
  {| columns := ["artwork_id"; "artist_id"; "image_primary_id"; "title"];
     rows := [[Num 10; Num 1; Num 100; Str "T"];
              [Num 11; Num 1; NaN; Str "U"]] |}.

Definition data : gmap string DataFrame := <["artwork" := artwork]> Sample.data.

End UnsetImage.

Module Unsorted.

(** The first artwork belongs to artist 2, the second to artist 1. *)
Definition artist : DataFrame :=
  {| columns := ["artist_id"; "name"];
     rows := [[Num 1; Str "A"]; [Num 2; Str "B"]] |}.

Definition artwork : DataFrame :=
  {| columns := ["artwork_id"; "artist_id"; "image_primary_id"; "title"];
     rows := [[Num 10; Num 2; Num 100; Str "T"];
              [Num 11; Num 1; Num 101; Str "U"]] |}.

Definition image_asset : DataFrame :=
  {| columns := ["image_id"; "artwork_id"; "storage_key"];
     rows := [[Num 100; Num 10; Str "k"]; [Num 101; Num 11; Str "l"]] |}.

Definition artwork_financial : DataFrame :=
  {| columns := ["id"; "artwork_id"; "price_amount"];
     rows := [[Str "e1"; Num 10; Num 500]; [Str "e2"; Num 11; Num 700]] |}.

Definition data : gmap string DataFrame :=
  <["artist" := artist]> (<["artwork" := artwork]> (<["image_asset" := image_asset]>
    (<["user" := Sample.user]> (<["artwork_financial" := artwork_financial]> ∅)))).

End Unsorted.

Module TwoNames.

(** Two artist rows carry the identifier 1; the first has no name. *)
Definition artist : DataFrame :=
  {| columns := ["artist_id"; "name"];
     rows := [[Num 1; NaN]; [Num 1; Str "B"]] |}.

Definition data : gmap string DataFrame := <["artist" := artist]> Sample.data.

End TwoNames.

Module MissingId.

(** An artist row and an artwork row without artist identifier. *)
Definition artist : DataFrame :=
  {| columns := ["artist_id"; "name"];
     rows := [[NaN; Str "X"]] |}.

Definition artwork : DataFrame :=
  {| columns := ["artwork_id"; "artist_id"; "image_primary_id"; "title"];
     rows := [[Num 10; NaN; Num 100; Str "T"]] |}.

Definition data : gmap string DataFrame :=
  <["artist" := artist]> (<["artwork" := artwork]> Sample.data).

End MissingId.

Module TextPrice.

(** The price of the only event of artwork 10 is a text. *)
Definition artwork_financial : DataFrame :=
  {| columns := ["id"; "artwork_id"; "price_amount"];
     rows := [[Str "e1"; Num 10; Str "unknown"]] |}.

Definition data : gmap string DataFrame :=
  <["artwork_financial" := artwork_financial]> Sample.data.

Definition world : world :=
  {| files := <["./artwork_financial.csv" := to_lines artwork_financial]> SampleWorld.inputs;
     dirs := ∅; stdout := []; write_budget := None |}.

End TextPrice.

Module TextElsewhere.

(** Artwork 10 of artist 2 has one event, whose price is a text; artwork 11
    of artist 1 has no event. *)
Definition artwork_financial : DataFrame :=
  {| columns := ["id"; "artwork_id"; "price_amount"];
     rows := [[Str "e1"; Num 10; Str "unknown"]] |}.

Definition data : gmap string DataFrame :=
  <["artwork_financial" := artwork_financial]> Unsorted.data.

End TextElsewhere.

Module NoArtworkColumn.

(** The image table has no [artwork_id] column. *)
Definition image_asset : DataFrame :=
  {| columns := ["image_id"; "storage_key"];
     rows := [[Num 100; Str "k"]] |}.

Definition data : gmap string DataFrame := <["image_asset" := image_asset]> Sample.data.

End NoArtworkColumn.


Module NoEvents.

(** Artwork 10 has no financial event; artwork 11 of artist 2 has one. *)
Definition enriched : DataFrame :=
  {| columns := ["artwork_id"; "artist_id"; "name"; "id"; "price_amount"];
     rows := [[Num 10; Num 1; Str "A"; NaN; NaN];
              [Num 11; Num 2; Str "B"; Str "e1"; Num 300]] |}.

End NoEvents.

(** ** Tactics *)

Ltac by_compute := vm_compute; reflexivity.
Ltac by_decide := refine (bool_decide_unpack _ _); vm_compute; exact I.
Ltac split4 := split; [|split; [|split]].

(** * Results, labels and rows *)

Lemma bind_Ok {A B} (m : result A) (f : A → result B) (b : B) :
  m ≫= f = Ok b → ∃ a, m = Ok a ∧ f a = Ok b.
Proof. destruct m as [a|e]; simpl; [eauto | discriminate]. Qed.

Lemma loc_Ok key cols i : loc key cols = Ok i ↔ get_loc key cols = Some i.
Proof. unfold loc. destruct (get_loc key cols); split; congruence. Qed.

Lemma table_Ok data name df : table data name = Ok df ↔ data !! name = Some df.
Proof. unfold table. destruct (data !! name); split; congruence. Qed.

Lemma get_loc_lookup key cols i : get_loc key cols = Some i → cols !! i = Some key.
Proof.
  revert i. induction cols as [|c cs IH]; intros i; simpl; [done|].
  case_decide; [intros [= <-]; by subst|].
  destruct (get_loc key cs) eqn:E; simpl; [|done].
  intros [= <-]. by apply IH.
Qed.

Lemma get_loc_lt key cols i : get_loc key cols = Some i → i < length cols.
Proof. intros H%get_loc_lookup. by eapply lookup_lt_Some. Qed.

Lemma get_loc_None key cols : get_loc key cols = None ↔ key ∉ cols.
Proof.
  induction cols as [|c cs IH]; simpl.
  - split; [intros _; apply not_elem_of_nil | done].
  - case_decide; subst.
    + split; [done | intros []; left].
    + rewrite not_elem_of_cons, <- IH. destruct (get_loc key cs); simpl; intuition congruence.
Qed.

Lemma get_loc_app_l key l1 l2 i :
  get_loc key l1 = Some i → get_loc key (l1 ++ l2) = Some i.
Proof.
  revert i. induction l1 as [|c cs IH]; intros i; simpl; [done|].
  case_decide; [done|].
  destruct (get_loc key cs) eqn:E; simpl; [|done].
  intros [= <-]. by rewrite (IH n).
Qed.

Lemma at_app_l (l r : list cell) i : i < length l → at_ (l ++ r) i = at_ l i.
Proof. intros. unfold at_. by rewrite lookup_total_app_l. Qed.

Lemma field_Some df key r i : get_loc key (columns df) = Some i → field df key r = Some (at_ r i).
Proof. unfold field. by intros ->. Qed.

Lemma wf_frame_row df r : wf_frame df → r ∈ rows df → length r = length (columns df).
Proof. unfold wf_frame. rewrite Forall_forall. auto. Qed.

(** ** Suffixes

    A label that does not end with a suffix is never made by adding that
    suffix, so the labels that [merge_data] and [analyze_data] look up keep
    their positions through the joins. *)

Lemma string_app_cons a (c s : string) : String a c +:+ s = String a (c +:+ s).
Proof. reflexivity. Qed.

Lemma string_length_app (c s : string) :
  String.length (c +:+ s) = String.length c + String.length s.
Proof.
  induction c as [|a c IH]; [done|].
  rewrite string_app_cons. simpl. by rewrite IH.
Qed.

Lemma string_drop_app (c s : string) : string_drop (String.length c) (c +:+ s) = s.
Proof. induction c as [|a c IH]; [done|]. rewrite string_app_cons. apply IH. Qed.

Lemma string_app_nil_r (c : string) : c +:+ "" = c.
Proof. induction c as [|a c IH]; [done|]. rewrite string_app_cons. by rewrite IH. Qed.

Lemma ends_with_app (c sfx : string) : ends_with sfx (c +:+ sfx) = true.
Proof.
  unfold ends_with. apply bool_decide_eq_true.
  rewrite string_length_app.
  replace (String.length c + String.length sfx - String.length sfx) with (String.length c) by lia.
  apply string_drop_app.
Qed.

Lemma app_suffix_ne (c sfx k : string) : ends_with sfx k = false → c +:+ sfx ≠ k.
Proof. intros H <-. by rewrite ends_with_app in H. Qed.

Lemma add_suffix_empty ov c : add_suffix ov "" c = c.
Proof. unfold add_suffix. case_decide; [apply string_app_nil_r | done]. Qed.

Lemma fmap_add_suffix_empty ov (cols : list string) : add_suffix ov "" <$> cols = cols.
Proof.
  induction cols as [|c cs IH]; csimpl; [done|]. by rewrite add_suffix_empty, IH.
Qed.

Lemma add_suffix_eq ov sfx c k :
  ends_with sfx k = false → k ∉ ov → add_suffix ov sfx c = k ↔ c = k.
Proof.
  intros Hs Hk. unfold add_suffix. case_decide as Hc; [|done].
  split; [intros H; by apply app_suffix_ne in H | intros ->; done].
Qed.

Lemma add_suffix_ne ov sfx c k :
  ends_with sfx k = false → k ∈ ov → add_suffix ov sfx c ≠ k.
Proof.
  intros Hs Hk. unfold add_suffix. case_decide as Hc; [by apply app_suffix_ne|].
  congruence.
Qed.

Lemma get_loc_add_suffix ov sfx k cols :
  ends_with sfx k = false → k ∉ ov →
  get_loc k (add_suffix ov sfx <$> cols) = get_loc k cols.
Proof.
  intros Hs Hk. induction cols as [|c cs IH]; csimpl; [done|].
  rewrite IH. repeat case_decide; try done.
  - by apply add_suffix_eq in H.
  - subst. by rewrite (proj2 (add_suffix_eq ov sfx k k Hs Hk)) in H.
Qed.

Lemma elem_of_overlap c lcols rcols shared :
  c ∈ overlap lcols rcols shared ↔ c ∈ lcols ∧ c ∈ rcols ∧ Some c ≠ shared.
Proof. unfold overlap. rewrite list_elem_of_filter. tauto. Qed.

Lemma elem_of_drop_key {A} shared ri (xs : list A) x :
  x ∈ drop_key shared ri xs → x ∈ xs.
Proof. destruct shared; simpl; [apply list_elem_of_delete_inv | done]. Qed.

(** A label of the left frame keeps its position in the merged frame. *)
Lemma merged_get_loc k lcols rcols shared ri s1 s2 i :
  ends_with s1 k = false → ends_with s2 k = false →
  k ∈ lcols → Some k ≠ shared →
  get_loc k ((add_suffix (overlap lcols rcols shared) s1 <$> lcols)
             ++ (add_suffix (overlap lcols rcols shared) s2 <$> drop_key shared ri rcols))
    = Some i →
  get_loc k lcols = Some i.
Proof.
  intros H1 H2 Hk Hsh. set (ov := overlap lcols rcols shared).
  destruct (decide (k ∈ ov)) as [Hov|Hov].
  - intros Hloc. apply get_loc_lookup, list_elem_of_lookup_2 in Hloc.
    apply elem_of_app in Hloc as [Hin|Hin];
      apply list_elem_of_fmap in Hin as (c & Hc & _);
      symmetry in Hc; by apply add_suffix_ne in Hc.
  - destruct (get_loc k lcols) as [j|] eqn:Hj.
    + rewrite (get_loc_app_l _ _ _ j); [done|]. by rewrite get_loc_add_suffix.
    + by apply get_loc_None in Hj.
Qed.

(** A left label that is on one side only keeps its name and place. *)
Lemma merged_keeps_left k lcols rcols ov s1 i :
  ends_with s1 k = false → k ∉ ov →
  get_loc k lcols = Some i →
  get_loc k ((add_suffix ov s1 <$> lcols) ++ rcols) = Some i.
Proof.
  intros Hs Hov Hi. apply get_loc_app_l. by rewrite get_loc_add_suffix.
Qed.

Lemma merged_get_loc_empty k lcols ov (rcols : list string) i :
  get_loc k lcols = Some i →
  get_loc k ((add_suffix ov "" <$> lcols) ++ rcols) = Some i.
Proof. intros H. apply get_loc_app_l. by rewrite fmap_add_suffix_empty. Qed.

(** ** Lists *)

Lemma filter_all {A} (P : A → Prop) `{!∀ x, Decision (P x)} (l : list A) :
  (∀ x, x ∈ l → P x) → filter P l = l.
Proof.
  induction l as [|x l IH]; intros Hall; [done|].
  rewrite filter_cons_True by (apply Hall; left). f_equal.
  apply IH. intros. apply Hall. by right.
Qed.

Lemma filter_none {A} (P : A → Prop) `{!∀ x, Decision (P x)} (l : list A) :
  (∀ x, x ∈ l → ¬ P x) → filter P l = [].
Proof.
  induction l as [|x l IH]; intros Hall; [done|].
  rewrite filter_cons_False by (apply Hall; left).
  apply IH. intros. apply Hall. by right.
Qed.

Lemma filter_bind {A B} (P : B → Prop) (Q : A → Prop) `{!∀ y, Decision (P y)}
    `{!∀ x, Decision (Q x)} (f : A → list B) (l : list A) :
  (∀ x y, x ∈ l → y ∈ f x → P y ↔ Q x) →
  filter P (l ≫= f) = filter Q l ≫= f.
Proof.
  induction l as [|x l IH]; intros Hall; [done|].
  rewrite bind_cons, filter_app, IH by (intros; apply Hall; [by right|done]).
  destruct (decide (Q x)) as [HQ|HQ].
  - rewrite filter_cons_True, bind_cons by done. f_equal.
    apply filter_all. intros y Hy. by apply (Hall x y); [left|..].
  - rewrite filter_cons_False by done.
    rewrite filter_none; [done|]. intros y Hy HP. apply HQ. by apply (Hall x y); [left|..].
Qed.

Lemma filter_ext_in {A} (P R : A → Prop) `{!∀ x, Decision (P x)} `{!∀ x, Decision (R x)}
    (l : list A) :
  (∀ x, x ∈ l → P x ↔ R x) → filter P l = filter R l.
Proof.
  induction l as [|x l IH]; intros Hall; [done|].
  rewrite !filter_cons, IH by (intros; apply Hall; by right).
  destruct (decide (P x)) as [HP|HP].
  - by rewrite decide_True by (by apply Hall; [left|]).
  - rewrite decide_False; [done|]. intros HR. apply HP. by apply Hall; [left|].
Qed.

Lemma fmap_const_replicate {A B} (g : A → B) (l : list A) (b : B) :
  (∀ x, x ∈ l → g x = b) → g <$> l = replicate (length l) b.
Proof.
  induction l as [|x l IH]; intros Hall; [done|]. csimpl.
  rewrite (Hall x) by left. f_equal. apply IH. intros. apply Hall. by right.
Qed.

Lemma prefix_bind_replicate n (f : row → list row) (lrows : list row) :
  (∀ l r, l ∈ lrows → r ∈ f l → take n r = l) →
  take n <$> (lrows ≫= f) = lrows ≫= λ l, replicate (length (f l)) l.
Proof.
  induction lrows as [|l lrows IH]; intros Hall; [done|].
  rewrite !bind_cons, fmap_app, IH by (intros; eapply Hall; [by right|done]).
  f_equal. apply fmap_const_replicate. intros r Hr. apply Hall; [left|done].
Qed.

Lemma list_bind_bind {A B C} (f : A → list B) (g : B → list C) (l : list A) :
  (l ≫= f) ≫= g = l ≫= λ x, f x ≫= g.
Proof.
  induction l as [|x l IH]; [done|]. by rewrite !bind_cons, bind_app, IH.
Qed.

Lemma elem_of_delete_or {A} (l : list A) (i : nat) (k c : A) :
  l !! i = Some k → c ∈ l → c ∈ delete i l ∨ c = k.
Proof.
  intros Hi Hc. rewrite <- (take_drop_middle l i k Hi) in Hc.
  rewrite delete_take_drop. rewrite !elem_of_app in *. rewrite elem_of_cons in Hc.
  tauto.
Qed.

(** * [pd.merge] *)

Lemma merge_Ok lhs rhs lo ro h sfx out :
  merge lhs rhs lo ro h sfx = Ok out →
  ∃ li ri, get_loc lo (columns lhs) = Some li ∧ get_loc ro (columns rhs) = Some ri ∧
    let shared := if decide (lo = ro) then Some lo else None in
    let ov := overlap (columns lhs) (columns rhs) shared in
    let rcols := drop_key shared ri (columns rhs) in
    out = {| columns := (add_suffix ov sfx.1 <$> columns lhs) ++ (add_suffix ov sfx.2 <$> rcols);
             rows := rows lhs ≫= merge_block h shared li ri (length rcols) (rows rhs) |}.
Proof.
  unfold merge. intros (ri & Hri & H)%bind_Ok. apply bind_Ok in H as (li & Hli & H).
  apply loc_Ok in Hli, Hri. exists li, ri. split_and!; [done..|].
  destruct (key_conflict _ _); [done|]. simpl. by injection H as <-.
Qed.

Lemma elem_of_merge_block h shared li ri width rrows l r :
  r ∈ merge_block h shared li ri width rrows l →
  (∃ m, m ∈ rrows ∧ at_ m ri = at_ l li ∧ r = l ++ drop_key shared ri m) ∨
  (h = how_left ∧ matching li ri l rrows = [] ∧ r = l ++ replicate width NaN).
Proof.
  unfold merge_block. destruct (matching li ri l rrows) as [|m ms] eqn:E.
  - destruct h; [by intros ?%elem_of_nil|]. intros ->%list_elem_of_singleton. by right.
  - intros (m' & -> & Hm')%list_elem_of_fmap. left.
    rewrite <- E in Hm'. apply list_elem_of_filter in Hm' as [? ?]. eauto.
Qed.

Lemma elem_of_merge_inner shared li ri width rrows lrows r :
  r ∈ lrows ≫= merge_block how_inner shared li ri width rrows →
  ∃ l m, l ∈ lrows ∧ m ∈ rrows ∧ at_ m ri = at_ l li ∧ r = l ++ drop_key shared ri m.
Proof.
  intros (l & Hr & Hl)%list_elem_of_bind.
  apply elem_of_merge_block in Hr as [(m & ? & ? & ?)|(? & _)]; [eauto 10 | done].
Qed.

Lemma elem_of_merge_left_prefix h shared li ri width rrows lrows r :
  r ∈ lrows ≫= merge_block h shared li ri width rrows →
  ∃ l rest, l ∈ lrows ∧ r = l ++ rest.
Proof.
  intros (l & Hr & Hl)%list_elem_of_bind.
  apply elem_of_merge_block in Hr as [(m & ? & ? & ?)|(? & _ & ?)]; eauto.
Qed.

Lemma merge_block_prefix h shared li ri width rrows l r :
  r ∈ merge_block h shared li ri width rrows l → take (length l) r = l.
Proof.
  intros [(m & _ & _ & ->)|(_ & _ & ->)]%elem_of_merge_block; apply take_app_length.
Qed.

Lemma length_drop_key {A} shared ri (xs : list A) (cols : list string) :
  length xs = length cols → ri < length cols →
  length (drop_key shared ri xs) = length (drop_key shared ri cols).
Proof.
  intros Hlen Hri. destruct shared; simpl; [|done].
  rewrite !length_delete; [lia|apply lookup_lt_is_Some; lia..].
Qed.

Lemma merge_wf lhs rhs lo ro h sfx out :
  wf_frame lhs → wf_frame rhs → merge lhs rhs lo ro h sfx = Ok out → wf_frame out.
Proof.
  intros Hl Hr (li & ri & Hli & Hri & ->)%merge_Ok. unfold wf_frame. simpl.
  apply Forall_forall. intros r (l & Hin & Hlrow)%list_elem_of_bind.
  apply (wf_frame_row _ _ Hl) in Hlrow.
  rewrite length_app, !length_fmap.
  apply elem_of_merge_block in Hin as [(m & Hm & _ & ->)|(_ & _ & ->)].
  - rewrite length_app, Hlrow. f_equal. apply length_drop_key.
    + by apply wf_frame_row.
    + by eapply get_loc_lt.
  - by rewrite length_app, length_replicate, Hlrow.
Qed.

Lemma merge_follows_left lhs rhs lo ro h sfx out :
  wf_frame lhs → merge lhs rhs lo ro h sfx = Ok out →
  follows_left (length (columns lhs)) (rows lhs) (rows out).
Proof.
  intros Hwf (li & ri & _ & _ & ->)%merge_Ok. simpl. eexists.
  apply prefix_bind_replicate. intros l r Hl Hr.
  rewrite <- (wf_frame_row _ _ Hwf Hl). by eapply merge_block_prefix.
Qed.

(** * [merge_data] *)

Example merge_data_sample : merge_data Sample.data = Ok Sample.enriched.
Proof. vm_compute. reflexivity. Qed.

Lemma merge_data_inner data :
  merge_data data =
  merge_inner data ≫= λ df, table data "artwork_financial" ≫= λ fin,
    merge df fin "artwork_id" "artwork_id" how_left ("", "_financial").
Proof.
  unfold merge_data, merge_inner.
  destruct (table data "artwork") as [aw|]; simpl; [|done].
  destruct (table data "artist") as [ar|]; simpl; [|done].
  destruct (merge aw ar _ _ _ _) as [df1|]; simpl; [|done].
  destruct (table data "image_asset") as [im|]; simpl; [|done].
  by destruct (merge df1 im _ _ _ _) as [df2|].
Qed.

Lemma merge_inner_wf data df :
  wf_data data → merge_inner data = Ok df → wf_frame df.
Proof.
  intros Hwf Hm. unfold merge_inner in Hm.
  apply bind_Ok in Hm as (aw & Haw%table_Ok & Hm).
  apply bind_Ok in Hm as (ar & Har%table_Ok & Hm).
  apply bind_Ok in Hm as (df1 & H1 & Hm).
  apply bind_Ok in Hm as (im & Him%table_Ok & H2).
  apply (merge_wf _ _ _ _ _ _ _ (merge_wf _ _ _ _ _ _ _ (Hwf _ _ Haw) (Hwf _ _ Har) H1)
           (Hwf _ _ Him) H2).
Qed.

(** C1.  Every row of the enriched frame starts with an artwork row [w],
    whose [artist_id] and [image_primary_id] it keeps, and carries an
    artist row with the same [artist_id] and an image row whose [image_id]
    is the [image_primary_id] of [w]; an artwork row without a matching
    artist or without a matching image starts no row of the output.  Keys
    match as [pd.merge] matches them, a missing key with a missing key: the
    [artist_id] of every row is present when no artist row lacks its
    [artist_id], and its [image_primary_id] is present when no image row
    lacks its [image_id]. *)
Theorem merge_data_resolved data artwork artist image_asset out :
  data !! "artwork" = Some artwork →
  data !! "artist" = Some artist →
  data !! "image_asset" = Some image_asset →
  wf_frame artwork →
  "image_primary_id" ∈ columns artwork →
  merge_data data = Ok out →
  (∀ r, r ∈ rows out →
     ∃ w a i, w ∈ rows artwork ∧ a ∈ rows artist ∧ i ∈ rows image_asset ∧
       take (length (columns artwork)) r = w ∧
       is_Some (field artwork "artist_id" w) ∧
       field artwork "artist_id" w = field artist "artist_id" a ∧
       is_Some (field artwork "image_primary_id" w) ∧
       field artwork "image_primary_id" w = field image_asset "image_id" i ∧
       field out "artist_id" r = field artwork "artist_id" w ∧
       field out "image_primary_id" r = field artwork "image_primary_id" w ∧
       ∃ rest, r = w ++ without artist "artist_id" a ++ i ++ rest) ∧
  (∀ w, w ∈ rows artwork →
     (¬ ∃ a, a ∈ rows artist ∧ field artwork "artist_id" w = field artist "artist_id" a) ∨
     (¬ ∃ i, i ∈ rows image_asset ∧
             field artwork "image_primary_id" w = field image_asset "image_id" i) →
     ∀ r, r ∈ rows out → take (length (columns artwork)) r ≠ w) ∧
  ((∀ a, a ∈ rows artist → field artist "artist_id" a ≠ Some NaN) →
   ∀ r, r ∈ rows out → ∃ c, field out "artist_id" r = Some c ∧ c ≠ NaN) ∧
  ((∀ i, i ∈ rows image_asset → field image_asset "image_id" i ≠ Some NaN) →
   ∀ r, r ∈ rows out → ∃ c, field out "image_primary_id" r = Some c ∧ c ≠ NaN).
Proof.
  intros Haw Har Him Hwf Hcol Hm.
  assert (∀ r, r ∈ rows out →
     ∃ w a i, w ∈ rows artwork ∧ a ∈ rows artist ∧ i ∈ rows image_asset ∧
       take (length (columns artwork)) r = w ∧
       is_Some (field artwork "artist_id" w) ∧
       field artwork "artist_id" w = field artist "artist_id" a ∧
       is_Some (field artwork "image_primary_id" w) ∧
       field artwork "image_primary_id" w = field image_asset "image_id" i ∧
       field out "artist_id" r = field artwork "artist_id" w ∧
       field out "image_primary_id" r = field artwork "image_primary_id" w ∧
       ∃ rest, r = w ++ without artist "artist_id" a ++ i ++ rest) as Hrows.
  { unfold merge_data in Hm.
    apply bind_Ok in Hm as (? & Haw'%table_Ok & Hm).
    apply bind_Ok in Hm as (? & Har'%table_Ok & Hm).
    apply bind_Ok in Hm as (df1 & H1 & Hm).
    apply bind_Ok in Hm as (? & Him'%table_Ok & Hm).
    apply bind_Ok in Hm as (df2 & H2 & Hm).
    apply bind_Ok in Hm as (fin & _ & H3).
    simplify_eq.
    apply merge_Ok in H1 as (wi & ai & Hwi & Hai & ->).
    apply merge_Ok in H2 as (pi & ii & Hpi & Hii & ->).
    apply merge_Ok in H3 as (ki & fi & Hki & Hfi & ->).
    simpl in *.
    pose proof Hpi as Hpi1.
    eapply (merged_get_loc _ _ _ (Some "artist_id") ai) in Hpi; [|done..].
    intros r (l2 & rest & Hl2 & ->)%elem_of_merge_left_prefix.
    apply elem_of_merge_inner in Hl2 as (l1 & i & Hl1 & Hi & Hkey2 & ->).
    apply elem_of_merge_inner in Hl1 as (w & a & Hw & Ha & Hkey1 & ->).
    simpl in *.
    assert (length w = length (columns artwork)) as Hlen.
    { unfold wf_frame in Hwf. rewrite Forall_forall in Hwf. by apply Hwf. }
    assert (∀ j, j < length (columns artwork) →
              at_ (((w ++ delete ai a) ++ i) ++ rest) j = at_ w j) as Hat.
    { intros j Hj. rewrite <- !(assoc_L (++)). apply at_app_l. by rewrite Hlen. }
    exists w, a, i. split_and!; try done.
    - rewrite <- Hlen, <- !(assoc_L (++)). apply take_app_length.
    - unfold field. rewrite Hwi. by eexists.
    - unfold field. rewrite Hwi, Hai. simpl. by rewrite Hkey1.
    - unfold field. rewrite Hpi. by eexists.
    - unfold field. rewrite Hpi, Hii. simpl. rewrite Hkey2.
      rewrite at_app_l; [done|]. rewrite Hlen. by eapply get_loc_lt.
    - unfold field. cbn [columns].
      rewrite (merged_get_loc_empty _ _ _ _ wi), Hwi.
      + simpl. f_equal. apply Hat. by eapply get_loc_lt.
      + apply merged_get_loc_empty, merged_keeps_left; [done| |done].
        rewrite elem_of_overlap. intros (_ & _ & Hne). by apply Hne.
    - unfold field. cbn [columns].
      rewrite (merged_get_loc_empty _ _ _ _ pi), Hpi.
      + simpl. f_equal. apply Hat. by eapply get_loc_lt.
      + by apply merged_get_loc_empty.
    - exists rest. unfold without. rewrite Hai. by rewrite <- !(assoc_L (++)). }
  split4; [done| | |].
  - intros w Hw Hno r Hr Htake.
    destruct (Hrows r Hr) as (w' & a & i & _ & Ha & Hi & Hw' & _ & Hka & _ & Hki & _).
    rewrite Htake in Hw'. subst w'. destruct Hno as [Hno|Hno]; apply Hno; eauto.
  - intros Hnn r Hr.
    destruct (Hrows r Hr) as (w & a & i & _ & Ha & _ & _ & [c Hc] & Hka & _ & _ & Hfo & _).
    exists c. split; [congruence|]. intros ->. apply (Hnn a Ha). congruence.
  - intros Hnn r Hr.
    destruct (Hrows r Hr)
      as (w & a & i & _ & _ & Hi & _ & _ & _ & [c Hc] & Hki & _ & Hfo & _).
    exists c. split; [congruence|]. intros ->. apply (Hnn i Hi). congruence.
Qed.

Lemma merge_data_resolved_witness :
  (Sample.data !! "artwork" = Some Sample.artwork ∧
   Sample.data !! "artist" = Some Sample.artist ∧
   Sample.data !! "image_asset" = Some Sample.image_asset ∧
   wf_frame Sample.artwork ∧
   "image_primary_id" ∈ columns Sample.artwork ∧
   merge_data Sample.data = Ok Sample.enriched) ∧
  ∀ r, r ∈ rows Sample.enriched →
    ∃ w a i, w ∈ rows Sample.artwork ∧ a ∈ rows Sample.artist ∧
      i ∈ rows Sample.image_asset ∧ take 4 r = w.
Proof.
  split.
  - split_and!; [by_compute..|unfold wf_frame; by_decide|by_decide|by_compute].
  - intros r Hr.
    destruct (proj1 (merge_data_resolved Sample.data Sample.artwork Sample.artist
                       Sample.image_asset Sample.enriched
                       ltac:(by_compute) ltac:(by_compute) ltac:(by_compute)
                       ltac:(unfold wf_frame; by_decide) ltac:(by_decide)
                       ltac:(by_compute)) r Hr)
      as (w & a & i & Hw & Ha & Hi & Ht & _).
    exists w, a, i. repeat split; assumption.
Defined.

(** C1, as the specification words it, fails: [pd.merge] pairs the artwork
    without [artist_id] with the artist row without [artist_id], and both
    rows of the enriched frame lack their [artist_id]. *)
Lemma merge_data_missing_artist_id :
  field MissingId.artwork "artist_id" <$> rows MissingId.artwork = [Some NaN] ∧
  field MissingId.artist "artist_id" <$> rows MissingId.artist = [Some NaN] ∧
  ∃ out, merge_data MissingId.data = Ok out ∧
    field out "artist_id" <$> rows out = [Some NaN; Some NaN].
Proof.
  split; [by_compute|]. split; [by_compute|].
  eexists. split; [by_compute|by_compute].
Qed.

Lemma length_list_bind {A B} (f : A → list B) (l : list A) :
  length (l ≫= f) = sum_list (length ∘ f <$> l).
Proof. induction l as [|x l IH]; [done|]. cbn. by rewrite length_app, IH. Qed.

Lemma length_bind_const {A B} (f : A → list B) (l : list A) (n : nat) :
  (∀ x, x ∈ l → length (f x) = n) → length (l ≫= f) = length l * n.
Proof.
  induction l as [|x l IH]; intros Hall; [done|].
  rewrite bind_cons, length_app, IH by (intros; apply Hall; by right).
  rewrite (Hall x) by left. simpl. lia.
Qed.

Lemma list_bind_ext_in {A B} (f g : A → list B) (l : list A) :
  (∀ x, x ∈ l → f x = g x) → l ≫= f = l ≫= g.
Proof.
  induction l as [|x l IH]; intros Hall; [done|].
  rewrite !bind_cons, IH by (intros; apply Hall; by right).
  by rewrite (Hall x) by left.
Qed.

Lemma list_bind_singleton {A B} (f : A → B) (l : list A) :
  l ≫= (λ x, [f x]) = f <$> l.
Proof. induction l as [|x l IH]; [done|]. by rewrite bind_cons, IH. Qed.

Lemma length_merge_block_inner shared li ri width rrows l :
  length (merge_block how_inner shared li ri width rrows l) =
  length (matching li ri l rrows).
Proof.
  unfold merge_block. destruct (matching li ri l rrows) as [|m ms]; [done|].
  by rewrite length_fmap.
Qed.

Lemma matching_NoDup li ri l (rrows : list row) :
  NoDup ((λ r, at_ r ri) <$> rrows) → length (matching li ri l rrows) ≤ 1.
Proof.
  unfold matching. induction rrows as [|r rs IH]; intros Hnd; [simpl; lia|].
  rewrite fmap_cons in Hnd. apply NoDup_cons in Hnd as [Hr Hnd]. rewrite filter_cons.
  destruct (decide (at_ r ri = at_ l li)) as [Heq|Hne]; [|by apply IH].
  rewrite filter_none; [simpl; lia|].
  intros x Hx Hxe. apply Hr. rewrite Heq, <- Hxe.
  apply list_elem_of_fmap. eauto.
Qed.

Lemma getitem_Ok df key xs :
  getitem df key = Ok xs →
  ∃ i, get_loc key (columns df) = Some i ∧ xs = column_at df i.
Proof.
  unfold getitem. intros (i & Hi%loc_Ok & [= <-])%bind_Ok. eauto.
Qed.

Lemma column_Ok data name key xs :
  column data name key = Ok xs →
  ∃ df i, data !! name = Some df ∧ get_loc key (columns df) = Some i ∧
          xs = column_at df i.
Proof.
  unfold column. intros (df & Hdf%table_Ok & (i & Hi & ->)%getitem_Ok)%bind_Ok.
  eauto 10.
Qed.

Lemma sublist_bind_take n (f : row → list row) (lrows : list row) :
  (∀ l, l ∈ lrows → length (f l) ≤ 1) →
  (∀ l r, l ∈ lrows → r ∈ f l → take n r = l) →
  take n <$> (lrows ≫= f) `sublist_of` lrows.
Proof.
  induction lrows as [|l ls IH]; intros Hlen Htake; [done|].
  cbn. rewrite fmap_app.
  assert (take n <$> (ls ≫= f) `sublist_of` ls) as Hrec.
  { apply IH; intros; [apply Hlen|eapply Htake]; try done; by right. }
  pose proof (Hlen l ltac:(left)) as Hl. pose proof (Htake l) as Ht.
  destruct (f l) as [|r [|r' rs]]; simpl in *; [|  |lia].
  - by apply sublist_cons.
  - rewrite (Ht r) by (done || left). by apply sublist_skip.
Qed.

(** With unique artist and image identifiers the two inner joins repeat no
    artwork row. *)
Lemma merge_inner_unique_keys data artwork a_ids i_ids inner :
  data !! "artwork" = Some artwork →
  wf_frame artwork →
  column data "artist" "artist_id" = Ok a_ids → NoDup a_ids →
  column data "image_asset" "image_id" = Ok i_ids → NoDup i_ids →
  merge_inner data = Ok inner →
  take (length (columns artwork)) <$> rows inner `sublist_of` rows artwork.
Proof.
  intros Haw Hwf (artist & ai & Har & Hai & ->)%column_Ok Hnd1
    (image & ii & Him & Hii & ->)%column_Ok Hnd2 Hm.
  unfold merge_inner in Hm.
  apply bind_Ok in Hm as (? & Haw'%table_Ok & Hm).
  apply bind_Ok in Hm as (? & Har'%table_Ok & Hm).
  apply bind_Ok in Hm as (df1 & H1 & Hm).
  apply bind_Ok in Hm as (? & Him'%table_Ok & H2).
  simplify_eq.
  apply merge_Ok in H1 as (wi & ai' & Hwi & Hai' & ->).
  apply merge_Ok in H2 as (pi & ii' & Hpi & Hii' & ->).
  simplify_eq. cbn [rows]. rewrite list_bind_bind.
  apply sublist_bind_take.
  - intros w Hw.
    pose proof (matching_NoDup wi ai w (rows artist) Hnd1) as Hlen.
    rewrite <- (length_merge_block_inner (Some "artist_id") _ _
      (length (drop_key (Some "artist_id") ai (columns artist)))) in Hlen.
    destruct (merge_block how_inner _ wi ai _ (rows artist) w) as [|l1 [|l1' ls]];
      simpl in *; [lia| |lia].
    rewrite app_nil_r. rewrite length_merge_block_inner.
    by apply matching_NoDup.
  - intros w r Hw (l1 & Hr & Hl1)%list_elem_of_bind.
    apply merge_block_prefix in Hr, Hl1.
    rewrite <- (wf_frame_row _ _ Hwf Hw). rewrite <- Hl1 at 2. rewrite <- Hr.
    rewrite take_take. f_equal.
    assert (length w ≤ length l1); [|lia].
    rewrite <- Hl1. rewrite length_take. lia.
Qed.

(** The label [artwork_id] of the artwork table keeps its place through the
    two inner joins when the artist table has no such label. *)
Lemma merge_inner_artwork_id data artwork artist inner j :
  data !! "artwork" = Some artwork →
  data !! "artist" = Some artist →
  get_loc "artwork_id" (columns artwork) = Some j →
  "artwork_id" ∉ columns artist →
  merge_inner data = Ok inner →
  get_loc "artwork_id" (columns inner) = Some j.
Proof.
  intros Haw Har Hj Hno Hm. unfold merge_inner in Hm.
  apply bind_Ok in Hm as (? & Haw'%table_Ok & Hm).
  apply bind_Ok in Hm as (? & Har'%table_Ok & Hm).
  apply bind_Ok in Hm as (df1 & H1 & Hm).
  apply bind_Ok in Hm as (? & Him'%table_Ok & H2).
  simplify_eq.
  apply merge_Ok in H1 as (wi & ai & Hwi & Hai & ->).
  apply merge_Ok in H2 as (pi & ii & Hpi & Hii & ->).
  cbn [columns]. apply merged_get_loc_empty, merged_keeps_left; [done| |done].
  rewrite elem_of_overlap. by intros (_ & ? & _).
Qed.

Lemma sublist_filter {A} (P : A → Prop) `{!∀ x, Decision (P x)} (l1 l2 : list A) :
  l1 `sublist_of` l2 → filter P l1 `sublist_of` filter P l2.
Proof.
  induction 1 as [|x l1 l2 _ IH|x l1 l2 _ IH]; [done| |].
  - rewrite !filter_cons. destruct (decide (P x)); [by apply sublist_skip|done].
  - rewrite filter_cons. destruct (decide (P x)); [by apply sublist_cons|done].
Qed.

Lemma length_filter_fmap {A B} (f : A → B) (P : B → Prop) `{!∀ y, Decision (P y)}
    (l : list A) :
  length (filter (λ x, P (f x)) l) = length (filter P (f <$> l)).
Proof.
  induction l as [|x l IH]; [done|]. rewrite fmap_cons, !filter_cons.
  destruct (decide (P (f x))); simpl; by rewrite IH.
Qed.

Lemma at_take (r : row) n j : j < n → at_ (take n r) j = at_ r j.
Proof.
  intros Hj. unfold at_. rewrite !list_lookup_total_alt. by rewrite lookup_take_lt.
Qed.

(** C2.  Call retained the rows that the two inner joins keep, and take
    those with [artwork_id] [k].  Without financial event for [k], the
    enriched frame has one row for each of them: the retained row followed
    by missing values in all the columns of the financial table.  With
    [N ≥ 1] events it has [N] rows for each of them, one per event, which
    all start with the retained row.  So an artwork that is retained [m]
    times has [m * max 1 N] rows, and the count of the specification holds
    for an artwork that is retained once; which is the case, at most once,
    when no [artist_id] occurs twice in the artist table, no [image_id]
    twice in the image table and no [artwork_id] twice in the artwork
    table. *)
Theorem merge_data_fan_out data fin inner out k :
  wf_data data →
  data !! "artwork_financial" = Some fin →
  merge_inner data = Ok inner →
  merge_data data = Ok out →
  let retained := filter (λ r, field inner "artwork_id" r = Some k) (rows inner) in
  let events := filter (λ f, field fin "artwork_id" f = Some k) (rows fin) in
  let out_rows := filter (λ r, field out "artwork_id" r = Some k) (rows out) in
  (events = [] →
     out_rows = (λ l, l ++ replicate (length (columns fin) - 1) NaN) <$> retained) ∧
  (events ≠ [] →
     out_rows = retained ≫= λ l, (λ f, l ++ without fin "artwork_id" f) <$> events) ∧
  length out_rows = length retained * max 1 (length events) ∧
  (∀ l, retained = [l] →
     (events = [] →
        out_rows = [l ++ replicate (length (columns fin) - 1) NaN]) ∧
     (events ≠ [] →
        length out_rows = length events ∧
        out_rows = (λ f, l ++ without fin "artwork_id" f) <$> events ∧
        Forall (λ r, take (length (columns inner)) r = l) out_rows)) ∧
  (∀ artwork artist a_ids i_ids w_ids,
     data !! "artwork" = Some artwork →
     data !! "artist" = Some artist →
     "artwork_id" ∉ columns artist →
     getitem artist "artist_id" = Ok a_ids → NoDup a_ids →
     column data "image_asset" "image_id" = Ok i_ids → NoDup i_ids →
     getitem artwork "artwork_id" = Ok w_ids → NoDup w_ids →
     length retained ≤ 1).
Proof.
  intros Hwf Hfin Hinner Hout retained events out_rows.
  pose proof (merge_inner_wf _ _ Hwf Hinner) as Hwfi.
  pose proof Hout as Hout'.
  rewrite merge_data_inner, Hinner in Hout. simpl in Hout.
  apply bind_Ok in Hout as (fin' & Hfin'%table_Ok & Hout). simplify_eq.
  apply merge_Ok in Hout as (ki & fi & Hki & Hfi & ->).
  assert (ki < length (columns inner)) as Hlt by by eapply get_loc_lt.
  set (pad := replicate (length (columns fin) - 1) NaN).
  set (block := λ l : row,
         match events with
         | [] => [l ++ pad]
         | _ => (λ f, l ++ without fin "artwork_id" f) <$> events
         end).
  assert (∀ l, l ∈ retained →
            merge_block how_left (Some "artwork_id") ki fi
              (length (delete fi (columns fin))) (rows fin) l = block l) as Hblock.
  { intros l [Hf Hl]%list_elem_of_filter.
    rewrite (field_Some _ _ _ ki) in Hf by done.
    assert (matching ki fi l (rows fin) = events) as Hev.
    { unfold matching, events. apply list_filter_iff. intros f.
      rewrite (field_Some _ _ _ fi) by done. split; congruence. }
    unfold merge_block, block. rewrite Hev.
    destruct events as [|e es]; [|unfold without; by rewrite Hfi].
    unfold pad.
    rewrite length_delete by (apply lookup_lt_is_Some; by eapply get_loc_lt). done. }
  assert (out_rows = retained ≫= block) as Hrows.
  { unfold out_rows. simpl.
    rewrite (filter_bind _ (λ r, field inner "artwork_id" r = Some k)).
    - by apply list_bind_ext_in.
    - intros x y Hx Hy.
      rewrite (field_Some _ _ _ ki), (field_Some _ _ _ ki); [|done|].
      + assert (at_ y ki = at_ x ki) as ->; [|done].
        assert (∃ rest, y = x ++ rest) as [rest ->].
        { apply elem_of_merge_block in Hy as [(m & _ & _ & ->)|(_ & _ & ->)]; eauto. }
        apply at_app_l. by rewrite (wf_frame_row _ _ Hwfi Hx).
      + simpl. by apply merged_get_loc_empty. }
  assert (events = [] → out_rows = (λ l, l ++ pad) <$> retained) as Hnone.
  { intros He. rewrite Hrows. unfold block. rewrite He. apply list_bind_singleton. }
  assert (events ≠ [] →
          out_rows = retained ≫= λ l, (λ f, l ++ without fin "artwork_id" f) <$> events)
    as Hsome.
  { intros He. rewrite Hrows. unfold block. by destruct events. }
  split_and!; [done|done| | |].
  - rewrite Hrows. apply length_bind_const. intros l _. unfold block.
    destruct events; [done|]. rewrite length_fmap. simpl. lia.
  - intros l Hone. split.
    + intros He. rewrite (Hnone He), Hone. done.
    + intros He. rewrite (Hsome He), Hone. simpl. rewrite app_nil_r.
      split_and!; [by rewrite length_fmap|done|].
      apply Forall_fmap, Forall_forall. intros f _. simpl.
      assert (l ∈ rows inner) as Hl.
      { assert (l ∈ retained) as Hin by (rewrite Hone; left).
        by apply list_elem_of_filter in Hin as [_ ?]. }
      rewrite <- (wf_frame_row _ _ Hwfi Hl). apply take_app_length.
  - intros artwork artist a_ids i_ids w_ids Haw Har Hno Ha Hnda Hi Hndi
      (j & Hj & ->)%getitem_Ok Hndw.
    pose proof (Hwf _ _ Haw) as Hwfa.
    assert (column data "artist" "artist_id" = Ok a_ids) as Ha'.
    { unfold column, table. by rewrite Har. }
    pose proof (merge_inner_unique_keys _ _ _ _ _ Haw Hwfa Ha' Hnda Hi Hndi Hinner) as Hsub.
    pose proof (merge_inner_artwork_id _ _ _ _ _ Haw Har Hj Hno Hinner) as Hji.
    assert (j < length (columns artwork)) as Hjlt by by eapply get_loc_lt.
    unfold retained.
    rewrite (filter_ext_in _ (λ r, at_ (take (length (columns artwork)) r) j = k)).
    + etrans; [apply Nat.eq_le_incl;
                 exact (length_filter_fmap (take (length (columns artwork)))
                          (λ w, at_ w j = k) (rows inner))|].
      etrans; [apply sublist_length, sublist_filter, Hsub; apply _|].
      apply (matching_NoDup 0 j [k] (rows artwork) Hndw).
    + intros r _. rewrite (field_Some _ _ _ j) by done.
      rewrite at_take by done. split; congruence.
Qed.

Lemma merge_data_fan_out_witness :
  (wf_data Sample.data ∧
   Sample.data !! "artwork_financial" = Some Sample.artwork_financial ∧
   merge_inner Sample.data = Ok sample_inner ∧
   merge_data Sample.data = Ok Sample.enriched) ∧
  length (filter (λ r, field Sample.enriched "artwork_id" r = Some (Num 10))
            (rows Sample.enriched)) =
  length (filter (λ r, field sample_inner "artwork_id" r = Some (Num 10))
            (rows sample_inner)) *
  max 1 (length (filter (λ f, field Sample.artwork_financial "artwork_id" f = Some (Num 10))
                   (rows Sample.artwork_financial))).
Proof.
  split.
  - split_and!; [unfold wf_data, wf_frame; by_decide|by_compute..].
  - exact (proj1 (proj2 (proj2 (merge_data_fan_out Sample.data Sample.artwork_financial
                     sample_inner Sample.enriched (Num 10)
                     ltac:(unfold wf_data, wf_frame; by_decide) ltac:(by_compute)
                     ltac:(by_compute) ltac:(by_compute))))).
Defined.

(** C2, as the specification words it, fails: with two artist rows for the
    identifier 1 the single artwork of the example is retained twice, and
    its two financial events give four rows of the enriched frame. *)
Lemma merge_data_duplicate_artist :
  rows Sample.artwork = [[Num 10; Num 1; Num 100; Str "T"]] ∧
  length (filter (λ f, field Sample.artwork_financial "artwork_id" f = Some (Num 10))
            (rows Sample.artwork_financial)) = 2 ∧
  ∃ out, merge_data TwoNames.data = Ok out ∧
    length (filter (λ r, field out "artwork_id" r = Some (Num 10)) (rows out)) = 4.
Proof.
  split; [done|]. split; [by_compute|].
  eexists. split; [by_compute|by_compute].
Qed.

(** C9.  At each of the three joins the rows of the result follow the
    rows of its left frame, the rows that stem from one left row next to
    each other; so the enriched frame follows the artwork table. *)
Theorem merge_data_order data artwork out :
  wf_data data →
  data !! "artwork" = Some artwork →
  merge_data data = Ok out →
  ∃ artist image_asset artwork_financial df1 df2,
    data !! "artist" = Some artist ∧
    data !! "image_asset" = Some image_asset ∧
    data !! "artwork_financial" = Some artwork_financial ∧
    merge artwork artist "artist_id" "artist_id" how_inner ("_artwork", "_artist") = Ok df1 ∧
    merge df1 image_asset "image_primary_id" "image_id" how_inner ("", "_image") = Ok df2 ∧
    merge df2 artwork_financial "artwork_id" "artwork_id" how_left ("", "_financial") = Ok out ∧
    follows_left (length (columns artwork)) (rows artwork) (rows df1) ∧
    follows_left (length (columns df1)) (rows df1) (rows df2) ∧
    follows_left (length (columns df2)) (rows df2) (rows out) ∧
    follows_left (length (columns artwork)) (rows artwork) (rows out).
Proof.
  intros Hwf Haw Hm. unfold merge_data in Hm.
  apply bind_Ok in Hm as (? & Haw'%table_Ok & Hm).
  apply bind_Ok in Hm as (artist & Har%table_Ok & Hm).
  apply bind_Ok in Hm as (df1 & H1 & Hm).
  apply bind_Ok in Hm as (image & Him%table_Ok & Hm).
  apply bind_Ok in Hm as (df2 & H2 & Hm).
  apply bind_Ok in Hm as (fin & Hfin%table_Ok & H3).
  simplify_eq.
  pose proof (Hwf _ _ Haw) as Hwf0.
  pose proof (merge_wf _ _ _ _ _ _ _ Hwf0 (Hwf _ _ Har) H1) as Hwf1.
  pose proof (merge_wf _ _ _ _ _ _ _ Hwf1 (Hwf _ _ Him) H2) as Hwf2.
  exists artist, image, fin, df1, df2. split_and!; try done.
  - by eapply merge_follows_left.
  - by eapply merge_follows_left.
  - by eapply merge_follows_left.
  - apply merge_Ok in H1 as (? & ? & _ & _ & ->).
    apply merge_Ok in H2 as (? & ? & _ & _ & ->).
    apply merge_Ok in H3 as (? & ? & _ & _ & ->).
    cbn [rows]. rewrite !list_bind_bind. eexists.
    apply prefix_bind_replicate. intros w r Hw Hr.
    apply list_elem_of_bind in Hr as (l1 & Hr & Hl1).
    apply list_elem_of_bind in Hr as (l2 & Hr & Hl2).
    apply merge_block_prefix in Hl1, Hl2, Hr.
    rewrite <- (wf_frame_row _ _ Hwf0 Hw).
    rewrite <- Hl1 at 2. rewrite <- Hl2, <- Hr.
    rewrite !take_take.
    f_equal.
    assert (length w ≤ length l1).
    { rewrite <- Hl1. rewrite length_take. lia. }
    assert (length l1 ≤ length l2).
    { rewrite <- Hl2. rewrite length_take. lia. }
    lia.
Qed.

Lemma merge_data_order_witness :
  (wf_data Sample.data ∧
   Sample.data !! "artwork" = Some Sample.artwork ∧
   merge_data Sample.data = Ok Sample.enriched) ∧
  follows_left (length (columns Sample.artwork)) (rows Sample.artwork) (rows Sample.enriched).
Proof.
  split.
  - split_and!; [unfold wf_data, wf_frame; by_decide|by_compute..].
  - destruct (merge_data_order Sample.data Sample.artwork Sample.enriched
                ltac:(unfold wf_data, wf_frame; by_decide) ltac:(by_compute)
                ltac:(by_compute))
      as (? & ? & ? & ? & ? & _ & _ & _ & _ & _ & _ & _ & _ & _ & H).
    exact H.
Defined.

(** * [groupby] and [analyze_data] *)

Section aggregation.
Context {platform : Platform}.

Example analyze_data_sample :
  analyze_data Sample.enriched =
  Ok {| columns := summary_columns;
        rows := [[Num 1; Str "A"; Num 2; Num 1200; Num 600]] |}.
Proof. vm_compute. reflexivity. Qed.

Lemma renamed_sum_mean :
  (λ c : string, default c (({[ "sum" := "total_price"; "mean" := "avg_price" ]} : gmap string string) !! c))
    <$> ["sum"; "mean"] = ["total_price"; "avg_price"].
Proof. vm_compute. reflexivity. Qed.

Lemma analyze_data_eq df ki pi ni :
  get_loc "artist_id" (columns df) = Some ki →
  get_loc "price_amount" (columns df) = Some pi →
  get_loc "name" (columns df) = Some ni →
  analyze_data df =
  if numeric_dtype (column_at df pi)
  then Ok {| columns := summary_columns;
             rows := summary_row df ki pi ni <$> group_keys (column_at df ki) |}
  else Raise TypeError.
Proof.
  intros Hk Hp Hn. unfold analyze_data, groupby, select, loc.
  rewrite Hk. cbn -[group_keys get_loc numeric_dtype].
  rewrite Hp, Hn. cbn -[group_keys get_loc numeric_dtype].
  unfold agg_sum_mean. cbn -[group_keys get_loc numeric_dtype].
  fold (column_at df pi).
  destruct (numeric_dtype (column_at df pi)); [|done].
  cbn -[group_keys get_loc].
  f_equal. unfold reset_index, summary_columns. cbn -[group_keys get_loc].
  f_equal.
  unfold column_at.
  generalize (group_keys ((λ r : row, at_ r ki) <$> rows df)). intros ks.
  induction ks as [|k ks IH]; [done|]. cbn. f_equal. apply IH.
Qed.

Lemma analyze_data_Ok df s :
  analyze_data df = Ok s →
  ∃ ki pi ni,
    get_loc "artist_id" (columns df) = Some ki ∧
    get_loc "price_amount" (columns df) = Some pi ∧
    get_loc "name" (columns df) = Some ni ∧
    numeric_dtype (column_at df pi) = true ∧
    s = {| columns := summary_columns;
           rows := summary_row df ki pi ni <$> group_keys (column_at df ki) |}.
Proof.
  intros H.
  destruct (get_loc "artist_id" (columns df)) as [ki|] eqn:Hk; cycle 1.
  { unfold analyze_data, groupby, loc in H. by rewrite Hk in H. }
  destruct (get_loc "price_amount" (columns df)) as [pi|] eqn:Hp; cycle 1.
  { unfold analyze_data, groupby, select, loc in H. rewrite Hk in H.
    cbn -[group_keys get_loc] in H. by rewrite Hp in H. }
  destruct (get_loc "name" (columns df)) as [ni|] eqn:Hn; cycle 1.
  { unfold analyze_data, groupby, select, loc in H. rewrite Hk in H.
    cbn -[group_keys get_loc numeric_dtype] in H. rewrite Hp, Hn in H.
    cbn -[group_keys get_loc numeric_dtype] in H.
    by destruct (agg_sum_mean _). }
  rewrite (analyze_data_eq df ki pi ni) in H by done.
  exists ki, pi, ni. destruct (numeric_dtype (column_at df pi)); [|done].
  by injection H as <-.
Qed.

Lemma getitem_summary (key : string) (i : nat) (rs : list row) :
  get_loc key summary_columns = Some i →
  getitem {| columns := summary_columns; rows := rs |} key = Ok ((λ r, at_ r i) <$> rs).
Proof. intros H. unfold getitem, loc. cbn [columns]. by rewrite H. Qed.

(** ** The order of the groups *)

Lemma ascii_compare_N a b : Ascii.compare a b = N.compare (Ascii.N_of_ascii a) (Ascii.N_of_ascii b).
Proof. reflexivity. Qed.

Lemma string_leb_trans (a b c : string) :
  String.leb a b = true → String.leb b c = true → String.leb a c = true.
Proof.
  unfold String.leb. revert b c.
  induction a as [|x a IH]; intros [|y b] [|z c]; simpl; try done.
  rewrite !ascii_compare_N.
  destruct (N.compare_spec (Ascii.N_of_ascii x) (Ascii.N_of_ascii y)) as [E1|L1|G1];
    destruct (N.compare_spec (Ascii.N_of_ascii y) (Ascii.N_of_ascii z)) as [E2|L2|G2];
    destruct (N.compare_spec (Ascii.N_of_ascii x) (Ascii.N_of_ascii z)) as [E3|L3|G3];
    try done; try lia.
  apply IH.
Qed.

#[global] Instance cell_le_total : Total cell_le.
Proof.
  intros [|p|s] [|q|t]; unfold cell_le; simpl; auto.
  - destruct (Qlt_le_dec q p) as [H|H].
    + right. apply Qle_bool_iff. by apply Qlt_le_weak.
    + left. by apply Qle_bool_iff.
  - apply String.leb_total.
Qed.

#[global] Instance cell_le_trans : Transitive cell_le.
Proof.
  intros [|p|s] [|q|t] [|r|u]; unfold cell_le; simpl; try done.
  - rewrite !Qle_bool_iff. apply Qle_trans.
  - apply string_leb_trans.
Qed.

Lemma elem_of_group_keys ks k : k ∈ group_keys ks ↔ k ≠ NaN ∧ k ∈ ks.
Proof.
  unfold group_keys.
  by rewrite merge_sort_Permutation, elem_of_remove_dups, list_elem_of_filter.
Qed.

Lemma NoDup_group_keys ks : NoDup (group_keys ks).
Proof.
  unfold group_keys. rewrite merge_sort_Permutation. apply NoDup_remove_dups.
Qed.

Lemma StronglySorted_group_keys ks : StronglySorted cell_le (group_keys ks).
Proof. apply StronglySorted_merge_sort; apply _. Qed.

Lemma first_valid_cons c cs : c ≠ NaN → first_valid (c :: cs) = c.
Proof. intros H. unfold first_valid. by rewrite filter_cons_True. Qed.

Lemma first_valid_cons_NaN cs : first_valid (NaN :: cs) = first_valid cs.
Proof. unfold first_valid. by rewrite filter_cons_False by (by intros []). Qed.

(** C3, as the code has it.  The summary has one row for each [artist_id]
    of the enriched frame that is not missing, the rows are in ascending
    order of [artist_id], and the name of a row is the first name of its
    group, in the original order, that is not missing: the name of the
    first row of the group when that row has one. *)
Theorem analyze_data_groups df s :
  analyze_data df = Ok s →
  ∃ ki ni ids names,
    get_loc "artist_id" (columns df) = Some ki ∧
    get_loc "name" (columns df) = Some ni ∧
    getitem s "artist_id" = Ok ids ∧
    getitem s "name" = Ok names ∧
    NoDup ids ∧
    (∀ k, k ∈ ids ↔ k ≠ NaN ∧ k ∈ column_at df ki) ∧
    StronglySorted cell_le ids ∧
    names = (λ k, first_valid ((λ r, at_ r ni) <$> group_rows df ki k)) <$> ids ∧
    (∀ k r g, k ∈ ids → group_rows df ki k = r :: g → at_ r ni ≠ NaN →
       first_valid ((λ r, at_ r ni) <$> group_rows df ki k) = at_ r ni).
Proof.
  intros (ki & pi & ni & Hk & Hp & Hn & Hnum & ->)%analyze_data_Ok.
  exists ki, ni, (group_keys (column_at df ki)),
    ((λ k, first_valid ((λ r, at_ r ni) <$> group_rows df ki k)) <$> group_keys (column_at df ki)).
  split_and!; try done.
  - rewrite (getitem_summary _ 0) by done. f_equal.
    rewrite <- list_fmap_compose. apply list_fmap_id.
  - rewrite (getitem_summary _ 1) by done. f_equal.
    by rewrite <- list_fmap_compose.
  - apply NoDup_group_keys.
  - apply elem_of_group_keys.
  - apply StronglySorted_group_keys.
  - intros k r g _ -> Hr. csimpl. by apply first_valid_cons.
Qed.

(** The order of the groups, the name of a group and the rows without
    [artist_id], on three inputs and on every platform. *)
Lemma groups_not_first_appearance :
  (merge_data Unsorted.data ≫= λ e, getitem e "artist_id") = Ok [Num 2; Num 1] ∧
  summary_column Unsorted.data "artist_id" = Ok [Num 1; Num 2] ∧
  [Num 1; Num 2] ≠ first_appearance [Num 2; Num 1] ∧
  (merge_data TwoNames.data ≫= λ e, getitem e "name") = Ok [NaN; NaN; Str "B"; Str "B"] ∧
  summary_column TwoNames.data "name" = Ok [Str "B"] ∧
  (merge_data MissingId.data ≫= λ e, getitem e "artist_id") = Ok [NaN; NaN] ∧
  summary_column MissingId.data "artist_id" = Ok [].
Proof. split_and!; try (vm_compute; reflexivity). vm_compute. discriminate. Qed.

(** ** Sums and means *)

Lemma Qsum_fmap_wsum {A} (v : A → Q) (l : list A) : Qsum (v <$> l) = wsum v l.
Proof. induction l as [|x l IH]; [done|]. csimpl. by rewrite IH. Qed.

Lemma numbers_cons c xs :
  numbers (c :: xs) = match c with Num q => q :: numbers xs | _ => numbers xs end.
Proof. by destruct c. Qed.

Lemma numbers_fmap_wsum {A} (g : A → cell) (l : list A) :
  (Qsum (numbers (g <$> l)) == wsum (λ x, num_value (g x)) l)%Q.
Proof.
  induction l as [|x l IH]; [reflexivity|]. rewrite fmap_cons, numbers_cons.
  cbn [wsum foldr]. fold (wsum (λ x, num_value (g x)) l).
  destruct (g x) as [|q|t]; cbn [num_value Qsum foldr]; fold (Qsum (numbers (g <$> l)));
    rewrite IH; lra.
Qed.

Lemma numbers_fmap_Num {A} (f : A → Q) (l : list A) :
  numbers ((λ x, Num (f x)) <$> l) = f <$> l.
Proof. induction l as [|x l IH]; [done|]. rewrite !fmap_cons, numbers_cons. by rewrite IH. Qed.

Lemma numbers_all_NaN xs : (∀ c, c ∈ xs → c = NaN) → numbers xs = [].
Proof.
  induction xs as [|c xs IH]; intros Hall; [done|]. rewrite numbers_cons.
  rewrite (Hall c) by left. apply IH. intros. apply Hall. by right.
Qed.

Lemma wsum_zero {A} (l : list A) : (wsum (λ _, 0) l == 0)%Q.
Proof. induction l as [|x l IH]; simpl; [reflexivity|]. rewrite IH. lra. Qed.

Lemma wsum_ext {A} (v w : A → Q) (l : list A) :
  (∀ x, x ∈ l → (v x == w x)%Q) → (wsum v l == wsum w l)%Q.
Proof.
  induction l as [|x l IH]; intros Hall; simpl; [reflexivity|].
  rewrite (Hall x) by left. rewrite IH; [reflexivity|]. intros. apply Hall. by right.
Qed.

Lemma wsum_plus {A} (v w : A → Q) (l : list A) :
  (wsum (λ x, v x + w x) l == wsum v l + wsum w l)%Q.
Proof. induction l as [|x l IH]; simpl; [lra|]. rewrite IH. lra. Qed.

Lemma wsum_filter_disjoint {A} (v : A → Q) (P R : A → Prop)
    `{!∀ x, Decision (P x)} `{!∀ x, Decision (R x)} (l : list A) :
  (∀ x, P x → R x → False) →
  (wsum v (filter (λ x, P x ∨ R x) l) == wsum v (filter P l) + wsum v (filter R l))%Q.
Proof.
  intros Hdis. induction l as [|x l IH]; simpl; [lra|].
  rewrite !filter_cons.
  destruct (decide (P x)) as [HP|HP]; destruct (decide (R x)) as [HR|HR];
    [by destruct (Hdis x)|..].
  - rewrite decide_True by auto. simpl. rewrite IH. lra.
  - rewrite decide_True by auto. simpl. rewrite IH. lra.
  - rewrite decide_False by tauto. apply IH.
Qed.

Lemma wsum_groups {A} (key : A → cell) (v : A → Q) (ks : list cell) (l : list A) :
  NoDup ks →
  (wsum (λ k, wsum v (filter (λ x, key x = k) l)) ks
   == wsum v (filter (λ x, key x ∈ ks) l))%Q.
Proof.
  induction 1 as [|k ks Hk Hnd IH]; simpl.
  - rewrite filter_none; [reflexivity|]. intros x _. apply not_elem_of_nil.
  - rewrite IH.
    rewrite (list_filter_iff (λ x, key x ∈ k :: ks) (λ x, key x = k ∨ key x ∈ ks)).
    + rewrite wsum_filter_disjoint; [reflexivity|]. intros x -> Hin. done.
    + intros x. apply elem_of_cons.
Qed.

Lemma numeric_dtype_elem xs c : numeric_dtype xs = true → c ∈ xs → is_text c = false.
Proof.
  unfold numeric_dtype. rewrite forallb_forall. intros H Hc.
  apply list_elem_of_In, H in Hc. by destruct (is_text c).
Qed.

Lemma numeric_dtype_sub xs ys : ys ⊆ xs → numeric_dtype xs = true → numeric_dtype ys = true.
Proof.
  intros Hsub Hx. unfold numeric_dtype. apply forallb_forall. intros c Hc%list_elem_of_In.
  by rewrite (numeric_dtype_elem xs c Hx (Hsub _ Hc)).
Qed.

Lemma group_rows_subseteq df ki k i :
  ((λ r, at_ r i) <$> group_rows df ki k) ⊆ column_at df i.
Proof.
  intros c (r & -> & Hr)%list_elem_of_fmap. apply list_elem_of_fmap. exists r.
  split; [done|]. by apply list_elem_of_filter in Hr as [_ ?].
Qed.

(** ** Where the sums are exact *)

Lemma sublist_filter_impl {A} (P R : A → Prop) `{!∀ x, Decision (P x)}
    `{!∀ x, Decision (R x)} (l : list A) :
  (∀ x, P x → R x) → filter P l `sublist_of` filter R l.
Proof.
  intros HPR. induction l as [|x l IH]; [done|]. rewrite !filter_cons.
  destruct (decide (P x)) as [HP|HP].
  - rewrite decide_True by auto. by apply sublist_skip.
  - destruct (decide (R x)); [by apply sublist_cons|done].
Qed.

Lemma sublist_numbers xs ys : xs `sublist_of` ys → numbers xs `sublist_of` numbers ys.
Proof.
  induction 1 as [|c xs ys _ IH|c xs ys _ IH]; [done|..]; rewrite ?numbers_cons;
    destruct c; try done; by constructor.
Qed.

Lemma magnitude_nonneg ps : (0 <= Qsum (Qabs <$> ps))%Q.
Proof.
  induction ps as [|p ps IH]; csimpl; [lra|]. pose proof (Qabs_nonneg p). lra.
Qed.

Lemma magnitude_sublist ps qs :
  ps `sublist_of` qs → (Qsum (Qabs <$> ps) <= Qsum (Qabs <$> qs))%Q.
Proof.
  induction 1 as [|p ps qs _ IH|p ps qs _ IH]; csimpl; [lra|lra|].
  pose proof (Qabs_nonneg p). lra.
Qed.

Lemma forallb_sublist {A} (p : A → bool) (l1 l2 : list A) :
  l1 `sublist_of` l2 → forallb p l2 = true → forallb p l1 = true.
Proof.
  induction 1 as [|x l1 l2 _ IH|x l1 l2 _ IH]; simpl; [done|..];
    intros [? ?]%andb_prop; [apply andb_true_intro|]; auto.
Qed.

Lemma exact_sum_sublist ps qs :
  ps `sublist_of` qs → exact_sum qs = true → exact_sum ps = true.
Proof.
  intros Hs [Hi Hm]%andb_prop. unfold exact_sum. apply andb_true_intro. split.
  - by eapply forallb_sublist.
  - apply Qle_bool_iff. apply Qle_bool_iff in Hm.
    eapply Qle_trans; [by apply magnitude_sublist|done].
Qed.

Lemma mean_numbers xs : mean xs = mean_of (numbers xs).
Proof. unfold mean, mean_of. by destruct (numbers xs). Qed.

Lemma total_of_exact ps : exact_sum ps = true → total_of ps = Num (Qred (Qsum ps)).
Proof. intros H. unfold total_of. by rewrite H. Qed.

(** C4.  When the price column holds numbers and missing values only, the
    aggregation succeeds, and the total and the mean of a group are those
    of its prices that are present, as the machine computes them.  When
    the prices that are present in the rows with an [artist_id] are
    integers whose magnitudes add up to [2^53] at most, every total is the
    exact sum of its group and the totals add up to the sum of these
    prices.  In the example the summary is the row of artist 1 with 2,
    1200 and 600: [artwork_count] counts the two rows of the one
    artwork. *)
Theorem analyze_data_prices df ki pi ni :
  get_loc "artist_id" (columns df) = Some ki →
  get_loc "price_amount" (columns df) = Some pi →
  get_loc "name" (columns df) = Some ni →
  numeric_dtype (column_at df pi) = true →
  let prices := numbers ((λ r, at_ r pi) <$> filter (λ r, at_ r ki ≠ NaN) (rows df)) in
  ∃ s ids totals means,
    analyze_data df = Ok s ∧
    getitem s "artist_id" = Ok ids ∧
    getitem s "total_price" = Ok totals ∧
    getitem s "avg_price" = Ok means ∧
    totals = (λ k, total_of (group_prices df ki pi k)) <$> ids ∧
    means = (λ k, mean_of (group_prices df ki pi k)) <$> ids ∧
    (exact_sum prices = true →
       totals = (λ k, Num (Qred (Qsum (group_prices df ki pi k)))) <$> ids ∧
       (Qsum (numbers totals) == Qsum prices)%Q) ∧
    merge_data Sample.data ≫= analyze_data =
      Ok {| columns := summary_columns;
            rows := [[Num 1; Str "A"; Num 2; Num 1200; Num 600]] |}.
Proof.
  intros Hk Hp Hn Hnum prices.
  eexists _, (group_keys (column_at df ki)), _, _.
  rewrite (analyze_data_eq df ki pi ni), Hnum by done.
  split; [done|].
  rewrite (getitem_summary _ 0), (getitem_summary _ 3), (getitem_summary _ 4) by done.
  rewrite <- !list_fmap_compose.
  split; [f_equal; apply list_fmap_id|]. split; [done|]. split; [done|].
  assert ((λ r : row, at_ r 3) ∘ summary_row df ki pi ni <$> group_keys (column_at df ki) =
          (λ k, total_of (group_prices df ki pi k)) <$> group_keys (column_at df ki)) as Htot.
  { apply list_fmap_ext. intros _ k _. done. }
  split_and!.
  - exact Htot.
  - apply list_fmap_ext. intros _ k _. unfold compose. cbn. apply mean_numbers.
  - intros Hex. rewrite Htot.
    assert ((λ k, total_of (group_prices df ki pi k)) <$> group_keys (column_at df ki) =
            (λ k, Num (Qred (Qsum (group_prices df ki pi k)))) <$> group_keys (column_at df ki))
      as ->.
    { apply list_fmap_ext. intros i k Hi. apply total_of_exact.
      apply list_elem_of_lookup_2, elem_of_group_keys in Hi as [HkN _].
      eapply exact_sum_sublist; [|exact Hex].
      apply sublist_numbers, fmap_sublist, sublist_filter_impl. by intros r ->. }
    split; [done|].
    rewrite (numbers_fmap_Num (λ k, Qred (Qsum (group_prices df ki pi k)))).
    rewrite Qsum_fmap_wsum.
    rewrite (wsum_ext _ (λ k, wsum (λ r, num_value (at_ r pi))
                                 (filter (λ r, at_ r ki = k) (rows df)))).
    2:{ intros k _. rewrite Qred_correct. unfold group_prices, group_rows.
        apply numbers_fmap_wsum. }
    rewrite wsum_groups by apply NoDup_group_keys.
    unfold prices. rewrite numbers_fmap_wsum.
    rewrite (filter_ext_in (λ r, at_ r ki ∈ group_keys (column_at df ki))
                           (λ r, at_ r ki ≠ NaN)); [reflexivity|].
    intros r Hr. rewrite elem_of_group_keys. split; [tauto|]. intros ?. split; [done|].
    apply list_elem_of_fmap. eauto.
  - vm_compute. reflexivity.
Qed.

(** A text in the price column, on every platform. *)
Lemma text_price_raises :
  (merge_data TextPrice.data ≫= λ e, getitem e "price_amount") = Ok [Str "unknown"] ∧
  merge_data TextPrice.data ≫= analyze_data = Raise TypeError ∧
  (main TextPrice.world).1 = Raise TypeError ∧
  (merge_data MissingId.data ≫= λ e, getitem e "price_amount") = Ok [Num 500; Num 700] ∧
  summary_column MissingId.data "total_price" = Ok [].
Proof. split_and!; vm_compute; reflexivity. Qed.

(** C10.  When the price column holds numbers and missing values only, an
    artist all of whose rows lack a price has one row in the summary, with
    the number of these rows, the total 0 and no mean. *)
Theorem analyze_data_no_price df ki pi ni k :
  get_loc "artist_id" (columns df) = Some ki →
  get_loc "price_amount" (columns df) = Some pi →
  get_loc "name" (columns df) = Some ni →
  numeric_dtype (column_at df pi) = true →
  k ≠ NaN →
  group_rows df ki k ≠ [] →
  (∀ r, r ∈ group_rows df ki k → at_ r pi = NaN) →
  ∃ s, analyze_data df = Ok s ∧
    filter (λ sr, field s "artist_id" sr = Some k) (rows s) =
      [[k; first_valid ((λ r, at_ r ni) <$> group_rows df ki k);
        Num_nat (length (group_rows df ki k)); Num 0; NaN]].
Proof.
  intros Hk Hp Hn Hnum HkN Hne Hall. eexists.
  rewrite (analyze_data_eq df ki pi ni), Hnum by done. split; [done|].
  cbn [rows].
  assert (k ∈ group_keys (column_at df ki)) as Hin.
  { apply elem_of_group_keys. split; [done|].
    destruct (group_rows df ki k) as [|r g] eqn:E; [done|].
    assert (r ∈ group_rows df ki k) as Hr by (rewrite E; left).
    apply list_elem_of_filter in Hr as [<- Hr]. apply list_elem_of_fmap. eauto. }
  assert (summary_row df ki pi ni k =
          [k; first_valid ((λ r, at_ r ni) <$> group_rows df ki k);
           Num_nat (length (group_rows df ki k)); Num 0; NaN]) as <-.
  { unfold summary_row. cbn zeta.
    assert (∀ c, c ∈ (λ r : row, at_ r pi) <$> group_rows df ki k → c = NaN) as HN.
    { intros c (r & -> & Hr)%list_elem_of_fmap. by apply Hall. }
    unfold sum_, mean. by rewrite (numbers_all_NaN _ HN). }
  pose proof (NoDup_group_keys (column_at df ki)) as Hnd.
  revert Hin Hnd. generalize (group_keys (column_at df ki)). intros ks.
  induction ks as [|k' ks IH]; intros Hin Hnd; [by apply elem_of_nil in Hin|].
  apply NoDup_cons in Hnd as [Hk' Hnd]. csimpl. rewrite filter_cons.
  assert (∀ x, field {| columns := summary_columns;
                        rows := summary_row df ki pi ni <$> k' :: ks |} "artist_id"
                 (summary_row df ki pi ni x) = Some x) as Hf by done.
  destruct (decide (k' = k)) as [->|Hneq].
  - rewrite decide_True by done. f_equal.
    apply filter_none. intros sr (x & -> & Hx)%list_elem_of_fmap.
    intros [= ->]. done.
  - rewrite decide_False by (intros [= ?]; done).
    apply elem_of_cons in Hin as [->|Hin]; [done|].
    rewrite <- (IH Hin Hnd). apply list_filter_iff. done.
Qed.

(** A text in the price of another artist, on every platform. *)
Lemma text_price_elsewhere_raises :
  (merge_data TextElsewhere.data ≫= λ e, getitem e "artist_id") = Ok [Num 2; Num 1] ∧
  (merge_data TextElsewhere.data ≫= λ e, getitem e "price_amount")
    = Ok [Str "unknown"; NaN] ∧
  merge_data TextElsewhere.data ≫= analyze_data = Raise TypeError.
Proof. split_and!; vm_compute; reflexivity. Qed.

End aggregation.

Section aggregation_examples.
#[local] Existing Instance exact_platform.

Lemma analyze_data_groups_witness :
  analyze_data Sample.enriched = Ok sample_summary ∧
  ∃ ids, getitem sample_summary "artist_id" = Ok ids ∧ StronglySorted cell_le ids.
Proof.
  split; [by_compute|].
  destruct (analyze_data_groups Sample.enriched sample_summary ltac:(by_compute))
    as (ki & ni & ids & names & _ & _ & Hids & _ & _ & _ & Hs & _).
  exists ids. split; assumption.
Defined.

Lemma analyze_data_prices_witness :
  (get_loc "artist_id" (columns Sample.enriched) = Some 1 ∧
   get_loc "price_amount" (columns Sample.enriched) = Some 9 ∧
   get_loc "name" (columns Sample.enriched) = Some 4 ∧
   numeric_dtype (column_at Sample.enriched 9) = true) ∧
  ∃ s, analyze_data Sample.enriched = Ok s.
Proof.
  split; [split_and!; by_compute|].
  destruct (analyze_data_prices Sample.enriched 1 9 4 ltac:(by_compute) ltac:(by_compute)
              ltac:(by_compute) ltac:(by_compute)) as (s & ? & ? & ? & Hs & _).
  exists s. exact Hs.
Defined.

Lemma analyze_data_no_price_witness :
  (get_loc "artist_id" (columns NoEvents.enriched) = Some 1 ∧
   get_loc "price_amount" (columns NoEvents.enriched) = Some 4 ∧
   get_loc "name" (columns NoEvents.enriched) = Some 2 ∧
   numeric_dtype (column_at NoEvents.enriched 4) = true ∧
   Num 1 ≠ NaN ∧
   group_rows NoEvents.enriched 1 (Num 1) ≠ [] ∧
   (∀ r, r ∈ group_rows NoEvents.enriched 1 (Num 1) → at_ r 4 = NaN)) ∧
  ∃ s, analyze_data NoEvents.enriched = Ok s ∧
    filter (λ sr, field s "artist_id" sr = Some (Num 1)) (rows s) =
      [[Num 1; first_valid ((λ r, at_ r 2) <$> group_rows NoEvents.enriched 1 (Num 1));
        Num_nat (length (group_rows NoEvents.enriched 1 (Num 1))); Num 0; NaN]].
Proof.
  assert (∀ r, r ∈ group_rows NoEvents.enriched 1 (Num 1) → at_ r 4 = NaN) as Hall.
  { intros r Hr. vm_compute in Hr. apply list_elem_of_singleton in Hr. by subst. }
  split.
  - split_and!; [by_compute..|discriminate|vm_compute; discriminate|exact Hall].
  - exact (analyze_data_no_price NoEvents.enriched 1 4 2 (Num 1) ltac:(by_compute)
             ltac:(by_compute) ltac:(by_compute) ltac:(by_compute) ltac:(discriminate)
             ltac:(vm_compute; discriminate) Hall).
Defined.

(** C3 fails as stated: artist 2 occurs first in the enriched frame and
    comes second in the summary; the name of a group whose first row has
    none is taken from a later row; and rows whose [artist_id] is missing
    form no group. *)
Lemma analyze_data_not_first_appearance :
  (merge_data Unsorted.data ≫= λ e, getitem e "artist_id") = Ok [Num 2; Num 1] ∧
  summary_column Unsorted.data "artist_id" = Ok [Num 1; Num 2] ∧
  [Num 1; Num 2] ≠ first_appearance [Num 2; Num 1] ∧
  (merge_data TwoNames.data ≫= λ e, getitem e "name") = Ok [NaN; NaN; Str "B"; Str "B"] ∧
  summary_column TwoNames.data "name" = Ok [Str "B"] ∧
  (merge_data MissingId.data ≫= λ e, getitem e "artist_id") = Ok [NaN; NaN] ∧
  summary_column MissingId.data "artist_id" = Ok [].
Proof. exact groups_not_first_appearance. Qed.

(** C4, as the specification words it, fails: a text in the price column
    is not left out, the aggregation raises [TypeError] and the run ends
    there; and the prices of rows without [artist_id] are in no total. *)
Lemma analyze_data_text_price_raises :
  (merge_data TextPrice.data ≫= λ e, getitem e "price_amount") = Ok [Str "unknown"] ∧
  merge_data TextPrice.data ≫= analyze_data = Raise TypeError ∧
  (main TextPrice.world).1 = Raise TypeError ∧
  (merge_data MissingId.data ≫= λ e, getitem e "price_amount") = Ok [Num 500; Num 700] ∧
  summary_column MissingId.data "total_price" = Ok [].
Proof. exact text_price_raises. Qed.

(** C10, as the specification words it, fails: every row of artist 1 lacks
    its price, but the price of artist 2 is a text, and the aggregation
    raises [TypeError] instead of emitting a row for artist 1. *)
Lemma analyze_data_no_price_raises :
  (merge_data TextElsewhere.data ≫= λ e, getitem e "artist_id") = Ok [Num 2; Num 1] ∧
  (merge_data TextElsewhere.data ≫= λ e, getitem e "price_amount")
    = Ok [Str "unknown"; NaN] ∧
  merge_data TextElsewhere.data ≫= analyze_data = Raise TypeError.
Proof. exact text_price_elsewhere_raises. Qed.

End aggregation_examples.

(** * [validate_links] *)

Example validate_links_sample : validate_links Sample.data = Ok [].
Proof. vm_compute. reflexivity. Qed.

Lemma truthy_decide s (w : warning) ws :
  append_if (truthy s) ws w = ws ++ (if decide (s ≠ ∅) then [w] else []).
Proof.
  unfold append_if, truthy. destruct (decide (s ≠ ∅)).
  - by rewrite bool_decide_eq_true_2.
  - by rewrite bool_decide_eq_false_2, app_nil_r.
Qed.

Lemma validate_links_eq data a1 b1 a2 b2 a3 b3 a4 :
  column data "artwork" "artist_id" = Ok a1 →
  column data "artist" "artist_id" = Ok b1 →
  column data "image_asset" "artwork_id" = Ok a2 →
  column data "artwork" "artwork_id" = Ok b2 →
  column data "artwork" "image_primary_id" = Ok a3 →
  column data "image_asset" "image_id" = Ok b3 →
  column data "artwork_financial" "artwork_id" = Ok a4 →
  validate_links data = Ok (omap (violation_warning data) relationships).
Proof.
  intros H1 H2 H3 H4 H5 H6 H7. unfold validate_links.
  rewrite H1, H2, H3, H4, H5, H6, H7. cbn [mbind result_bind].
  rewrite !truthy_decide. f_equal.
  unfold relationships, violation_warning, violations. cbn [omap list_omap fst snd].
  rewrite H1, H2, H3, H4, H5, H6, H7. cbn [app].
  repeat (destruct (decide _); cbn [app]); reflexivity.
Qed.

Lemma has_key_columns_Ok data :
  has_key_columns data →
  ∃ a1 b1 a2 b2 a3 b3 a4,
    column data "artwork" "artist_id" = Ok a1 ∧
    column data "artist" "artist_id" = Ok b1 ∧
    column data "image_asset" "artwork_id" = Ok a2 ∧
    column data "artwork" "artwork_id" = Ok b2 ∧
    column data "artwork" "image_primary_id" = Ok a3 ∧
    column data "image_asset" "image_id" = Ok b3 ∧
    column data "artwork_financial" "artwork_id" = Ok a4.
Proof.
  unfold has_key_columns, relationships. rewrite !Forall_cons. cbn [fst snd].
  intros ([[a1 ?] [b1 ?]] & [[a2 ?] [b2 ?]] & [[a3 ?] [b3 ?]] & [[a4 ?] _] & _).
  by exists a1, b1, a2, b2, a3, b3, a4.
Qed.

Lemma violation_warning_None data rel :
  violation_warning data rel = None → violations data rel = ∅.
Proof.
  unfold violation_warning. destruct (decide (violations data rel ≠ ∅)) as [|Hn]; [done|].
  intros _. by destruct (decide (violations data rel = ∅)).
Qed.

Lemma violations_eq data text st sc dt dc a b :
  column data st sc = Ok a → column data dt dc = Ok b →
  violations data (text, (st, sc), (dt, dc)) = missing a b.
Proof. unfold violations. cbn. by intros -> ->. Qed.

Lemma column_insert_ne data name name' key df :
  name ≠ name' → column (<[name := df]> data) name' key = column data name' key.
Proof. intros H. unfold column, table. by rewrite lookup_insert_ne. Qed.

Lemma column_insert data name key df :
  column (<[name := df]> data) name key = getitem df key.
Proof. unfold column, table. by rewrite lookup_insert_eq. Qed.

Lemma getitem_remove_row i df key xs :
  getitem df key = Ok xs → getitem (remove_row i df) key = Ok (delete i xs).
Proof.
  unfold getitem. cbn [columns rows remove_row]. destruct (loc key (columns df)); [|done].
  cbn. intros [= <-]. by rewrite list_fmap_delete.
Qed.

Lemma elem_of_set_ (a : list cell) (v : member) :
  v ∈ set_ a ↔ ∃ i c, a !! i = Some c ∧ v = iter_value (numeric_dtype a) i c.
Proof.
  unfold set_. rewrite elem_of_list_to_set, elem_of_lookup_imap.
  split; intros (i & c & ? & ?); eauto.
Qed.

Lemma elem_of_missing (a b : list cell) (v : member) :
  v ∈ missing a b ↔ v ∈ set_ a ∧ (is_float_nan v ∨ v ∉ set_ b).
Proof. unfold missing, set_sub. rewrite elem_of_filter. tauto. Qed.

Lemma iter_value_set numeric i c : c ≠ NaN → iter_value numeric i c = Obj c.
Proof. intros Hc. unfold iter_value. destruct c; [done|..]; by rewrite andb_false_r. Qed.

Lemma Obj_elem_of_set_ (a : list cell) (c : cell) :
  c ≠ NaN → Obj c ∈ set_ a ↔ c ∈ a.
Proof.
  intros Hc. rewrite elem_of_set_. split.
  - intros (i & c' & Hin & Heq). unfold iter_value in Heq.
    destruct (numeric_dtype a && isna c'); [done|]. injection Heq as ->.
    by eapply list_elem_of_lookup_2.
  - intros (i & Hi)%list_elem_of_lookup_1. exists i, c. split; [done|].
    by rewrite iter_value_set.
Qed.

(** A value that is set is reported exactly when it does not resolve. *)
Lemma Obj_elem_of_missing (a b : list cell) (c : cell) :
  c ≠ NaN → Obj c ∈ missing a b ↔ c ∈ a ∧ c ∉ b.
Proof.
  intros Hc. rewrite elem_of_missing, !Obj_elem_of_set_ by done. cbn. tauto.
Qed.

(** A missing value of a numeric column is always reported, one for each
    cell. *)
Lemma FloatNan_elem_of_missing (a b : list cell) (i : nat) :
  FloatNan i ∈ missing a b ↔ numeric_dtype a = true ∧ a !! i = Some NaN.
Proof.
  rewrite elem_of_missing, elem_of_set_. split.
  - intros [(j & c & Hin & Heq) _]. unfold iter_value in Heq.
    destruct (numeric_dtype a); [|done]. destruct c; [|done..].
    by injection Heq as ->.
  - intros [Hnum Hin]. split; [|by left]. exists i, NaN. by rewrite Hnum.
Qed.

(** A missing value of a column of texts is reported unless the referenced
    column is a column of texts with a missing value too. *)
Lemma Obj_NaN_elem_of_missing (a b : list cell) :
  Obj NaN ∈ missing a b ↔
  (numeric_dtype a = false ∧ NaN ∈ a) ∧ ¬ (numeric_dtype b = false ∧ NaN ∈ b).
Proof.
  assert (∀ x, Obj NaN ∈ set_ x ↔ numeric_dtype x = false ∧ NaN ∈ x) as Hset.
  { intros x. rewrite elem_of_set_. split.
    - intros (i & c & Hin & Heq). unfold iter_value in Heq.
      destruct (numeric_dtype x); simpl in Heq.
      + by destruct c.
      + injection Heq as <-. split; [done|]. by eapply list_elem_of_lookup_2.
    - intros [Hnum (i & Hi)%list_elem_of_lookup_1]. exists i, NaN. by rewrite Hnum. }
  rewrite elem_of_missing, !Hset. cbn. tauto.
Qed.

(** The set that a warning carries holds the offending values. *)
Lemma elem_of_missing_offending (a b : list cell) (v : member) :
  v ∈ missing a b ↔ offending a b v.
Proof.
  destruct v as [c|i]; [|apply FloatNan_elem_of_missing].
  destruct (decide (c = NaN)) as [->|Hc]; [apply Obj_NaN_elem_of_missing|].
  rewrite Obj_elem_of_missing by done. by destruct c.
Qed.

Lemma column_raises data name key e :
  column data name key = Raise e → e = KeyError name ∨ e = KeyError key.
Proof.
  unfold column, table, getitem, loc. destruct (data !! name) as [df|]; cbn.
  - destruct (get_loc key (columns df)); cbn; [done|]. intros [= <-]. by right.
  - intros [= <-]. by left.
Qed.

Lemma validate_links_Ok_columns data ws :
  validate_links data = Ok ws → has_key_columns data.
Proof.
  intros H. unfold validate_links in H.
  apply bind_Ok in H as (a1 & H1 & H). apply bind_Ok in H as (b1 & H2 & H).
  apply bind_Ok in H as (a2 & H3 & H). apply bind_Ok in H as (b2 & H4 & H).
  apply bind_Ok in H as (a3 & H5 & H). apply bind_Ok in H as (b3 & H6 & H).
  apply bind_Ok in H as (a4 & H7 & H).
  unfold has_key_columns, relationships, is_Ok. repeat constructor; cbn [fst snd]; eauto.
Qed.

Lemma validate_links_KeyError data e :
  validate_links data = Raise e → ∃ key, e = KeyError key.
Proof.
  intros H. unfold validate_links in H.
  assert (∀ name key, column data name key = Raise e → ∃ key, e = KeyError key) as Hcol.
  { intros name key [->| ->]%column_raises; eauto. }
  destruct (column data "artwork" "artist_id") eqn:H1; cbn in H;
    [|injection H as ->; by eapply Hcol].
  destruct (column data "artist" "artist_id") eqn:H2; cbn in H;
    [|injection H as ->; by eapply Hcol].
  destruct (column data "image_asset" "artwork_id") eqn:H3; cbn in H;
    [|injection H as ->; by eapply Hcol].
  destruct (column data "artwork" "artwork_id") eqn:H4; cbn in H;
    [|injection H as ->; by eapply Hcol].
  destruct (column data "artwork" "image_primary_id") eqn:H5; cbn in H;
    [|injection H as ->; by eapply Hcol].
  destruct (column data "image_asset" "image_id") eqn:H6; cbn in H;
    [|injection H as ->; by eapply Hcol].
  destruct (column data "artwork_financial" "artwork_id") eqn:H7; cbn in H;
    [|injection H as ->; by eapply Hcol].
  done.
Qed.

Lemma omap_text_sublist (f : string * (string * string) * (string * string) → option warning)
    (rels : list (string * (string * string) * (string * string))) :
  (∀ rel w, f rel = Some w → w_text w = rel.1.1) →
  w_text <$> omap f rels `sublist_of` (λ rel, rel.1.1) <$> rels.
Proof.
  intros Hf. induction rels as [|rel rels IH]; [done|]. csimpl.
  destruct (f rel) as [w|] eqn:E; csimpl.
  - rewrite (Hf _ _ E). by apply sublist_skip.
  - by apply sublist_cons.
Qed.

Lemma violation_warning_Some data rel w :
  violation_warning data rel = Some w →
  w_text w = rel.1.1 ∧ w_values w = violations data rel ∧ violations data rel ≠ ∅.
Proof.
  unfold violation_warning. destruct (decide (violations data rel ≠ ∅)); [|done].
  by intros [= <-].
Qed.

Lemma relationships_text_inj rel rel' :
  rel ∈ relationships → rel' ∈ relationships → rel.1.1 = rel'.1.1 → rel = rel'.
Proof.
  unfold relationships. rewrite !elem_of_cons, !elem_of_nil.
  intros [->|[->|[->|[->|[]]]]] [->|[->|[->|[->|[]]]]]; cbn; intros; done.
Qed.

(** C5.  [validate_links] returns exactly when the tables have the seven
    key columns it reads, and raises [KeyError] otherwise.  When it
    returns, the texts of its warnings follow the order of the four
    relationships, at most one for each; a relationship has a warning
    exactly when it has an offending value; and the set that the warning
    carries holds the offending values of the relationship, all of them
    and nothing else.  Removing from tables without violation the one
    artist row with an identifier that an artwork refers to leaves exactly
    one warning, which names that identifier. *)
Theorem validate_links_exact data :
  (is_Ok (validate_links data) ↔ has_key_columns data) ∧
  (∀ e, validate_links data = Raise e → ∃ key, e = KeyError key) ∧
  (∀ ws, validate_links data = Ok ws →
     w_text <$> ws `sublist_of` (λ rel, rel.1.1) <$> relationships ∧
     ∀ text st sc dt dc a b,
       (text, (st, sc), (dt, dc)) ∈ relationships →
       column data st sc = Ok a →
       column data dt dc = Ok b →
       ((∃ w, w ∈ ws ∧ w_text w = text) ↔ ∃ v, offending a b v) ∧
       (∀ w, w ∈ ws → w_text w = text → ∀ v, v ∈ w_values w ↔ offending a b v)) ∧
  (∀ artist a1 b1 i k,
     data !! "artist" = Some artist →
     column data "artwork" "artist_id" = Ok a1 →
     column data "artist" "artist_id" = Ok b1 →
     validate_links data = Ok [] →
     b1 !! i = Some k →
     k ∉ delete i b1 →
     k ∈ a1 →
     NaN ∉ a1 →
     validate_links (<["artist" := remove_row i artist]> data) =
       Ok [{| w_text := "artwork.artist_id missing in artist.artist_id: ";
              w_values := {[ Obj k ]} |}]).
Proof.
  assert (has_key_columns data →
          validate_links data = Ok (omap (violation_warning data) relationships)) as Hret.
  { intros Hcols.
    destruct (has_key_columns_Ok data Hcols)
      as (a1 & b1 & a2 & b2 & a3 & b3 & a4 & H1 & H2 & H3 & H4 & H5 & H6 & H7).
    by eapply validate_links_eq. }
  split4.
  - split; [intros [ws H]; by eapply validate_links_Ok_columns|].
    intros Hcols. eexists. by apply Hret.
  - apply validate_links_KeyError.
  - intros ws Hws. pose proof (validate_links_Ok_columns _ _ Hws) as Hcols.
    assert (ws = omap (violation_warning data) relationships) as ->.
    { rewrite (Hret Hcols) in Hws. injection Hws as Hws. symmetry. exact Hws. }
    split.
    { apply omap_text_sublist. by intros rel w (? & _)%violation_warning_Some. }
    intros text st sc dt dc a b Hrel Ha Hb.
    pose proof (violations_eq data text st sc dt dc a b Ha Hb) as Hv.
    assert (∀ w, w ∈ omap (violation_warning data) relationships → w_text w = text →
              w_values w = missing a b ∧ missing a b ≠ ∅) as Hw.
    { intros w (rel' & Hrel' & Hsome)%list_elem_of_omap Htext.
      apply violation_warning_Some in Hsome as (Ht & Hval & Hne).
      assert (rel' = (text, (st, sc), (dt, dc))) as ->.
      { apply relationships_text_inj; [done..|]. by rewrite <- Ht. }
      rewrite Hv in Hval, Hne. done. }
    split.
    + split.
      * intros (w & Hin & Htext). destruct (Hw w Hin Htext) as [_ Hne].
        apply set_choose_L in Hne as [v Hin']. exists v.
        by apply elem_of_missing_offending.
      * intros [v Hoff%elem_of_missing_offending].
        assert (missing a b ≠ ∅) as Hne.
        { intros He. rewrite He in Hoff. by apply not_elem_of_empty in Hoff. }
        exists {| w_text := text; w_values := missing a b |}. split; [|done].
        apply list_elem_of_omap. exists (text, (st, sc), (dt, dc)). split; [done|].
        unfold violation_warning. rewrite Hv. by rewrite decide_True by done.
    + intros w Hin Htext v. destruct (Hw w Hin Htext) as [-> _].
      apply elem_of_missing_offending.
  - intros artist a1 b1 i k Har H1 H2 Hnone Hi Hk Hka HNaN.
    pose proof (validate_links_Ok_columns _ _ Hnone) as Hcols.
    destruct (has_key_columns_Ok data Hcols)
      as (a1' & b1' & a2 & b2 & a3 & b3 & a4 & H1' & H2' & H3 & H4 & H5 & H6 & H7).
    assert (a1' = a1) as -> by congruence. assert (b1' = b1) as -> by congruence.
    rewrite (Hret Hcols) in Hnone. injection Hnone as Hnone.
    unfold relationships in Hnone. cbn [omap list_omap] in Hnone.
    destruct (violation_warning data (_, ("artwork", "artist_id"), _)) eqn:E1; [done|].
    destruct (violation_warning data (_, ("image_asset", "artwork_id"), _)) eqn:E2; [done|].
    destruct (violation_warning data (_, ("artwork", "image_primary_id"), _)) eqn:E3; [done|].
    destruct (violation_warning data (_, ("artwork_financial", "artwork_id"), _)) eqn:E4;
      [done|].
    apply violation_warning_None in E1, E2, E3, E4.
    rewrite (violations_eq _ _ _ _ _ _ _ _ H1 H2) in E1.
    rewrite (violations_eq _ _ _ _ _ _ _ _ H3 H4) in E2.
    rewrite (violations_eq _ _ _ _ _ _ _ _ H5 H6) in E3.
    rewrite (violations_eq _ _ _ _ _ _ _ _ H7 H4) in E4.
    set (data' := <["artist" := remove_row i artist]> data).
    assert (column data' "artist" "artist_id" = Ok (delete i b1)) as H2n.
    { unfold data'. rewrite column_insert. apply getitem_remove_row.
      unfold column, table in H2. by rewrite Har in H2. }
    assert (∀ name key, name ≠ "artist" → column data' name key = column data name key)
      as Hother.
    { intros name key Hne. unfold data'. by apply column_insert_ne. }
    rewrite <- Hother in H1, H3, H4, H5, H6, H7 by done.
    rewrite (validate_links_eq data' _ _ _ _ _ _ _ H1 H2n H3 H4 H5 H6 H7).
    f_equal. unfold relationships, violation_warning. cbn [omap list_omap fst snd].
    rewrite (violations_eq _ _ _ _ _ _ _ _ H1 H2n), (violations_eq _ _ _ _ _ _ _ _ H3 H4),
      (violations_eq _ _ _ _ _ _ _ _ H5 H6), (violations_eq _ _ _ _ _ _ _ _ H7 H4).
    rewrite E2, E3, E4.
    assert (missing a1 (delete i b1) = {[ Obj k ]}) as ->.
    { apply set_eq. intros v. rewrite elem_of_singleton. split.
      - intros Hv. pose proof Hv as Hv'. apply elem_of_missing in Hv' as [Hin _].
        apply elem_of_set_ in Hin as (j & c & Hc%list_elem_of_lookup_2 & ->).
        assert (c ≠ NaN) as HcN by (intros ->; done).
        rewrite iter_value_set in * by done. f_equal.
        apply Obj_elem_of_missing in Hv as [_ Hnot]; [|done].
        assert (c ∈ b1) as Hcb.
        { destruct (decide (c ∈ b1)) as [|Hn]; [done|].
          assert (Obj c ∈ missing a1 b1) as Hm by by apply Obj_elem_of_missing.
          rewrite E1 in Hm. by apply not_elem_of_empty in Hm. }
        by destruct (elem_of_delete_or b1 i k c Hi Hcb).
      - intros ->. apply Obj_elem_of_missing; [by intros ->|done]. }
    rewrite decide_True by (apply non_empty_singleton_L).
    by rewrite !decide_False by (by intros []).
Qed.

Lemma validate_links_exact_witness :
  (Sample.data !! "artist" = Some Sample.artist ∧
   column Sample.data "artwork" "artist_id" = Ok [Num 1] ∧
   column Sample.data "artist" "artist_id" = Ok [Num 1] ∧
   validate_links Sample.data = Ok [] ∧
   (([Num 1] : list cell) !! 0 = Some (Num 1)) ∧
   (Num 1 ∉ delete 0 [Num 1]) ∧
   (Num 1 ∈ [Num 1]) ∧
   (NaN ∉ [Num 1])) ∧
  validate_links (<["artist" := remove_row 0 Sample.artist]> Sample.data) =
    Ok [{| w_text := "artwork.artist_id missing in artist.artist_id: ";
           w_values := {[ Obj (Num 1) ]} |}].
Proof.
  split.
  - split_and!; [by_compute..|by_decide|by_decide|by_decide].
  - exact (proj2 (proj2 (proj2 (validate_links_exact Sample.data)))
             Sample.artist [Num 1] [Num 1] 0 (Num 1)
             ltac:(by_compute) ltac:(by_compute) ltac:(by_compute) ltac:(by_compute)
             ltac:(by_compute) ltac:(by_decide) ltac:(by_decide) ltac:(by_decide)).
Defined.

(** C5, as the specification words it, fails: on an image table without
    [artwork_id] column the validator raises [KeyError]. *)
Lemma validate_links_missing_column :
  columns NoArtworkColumn.image_asset = ["image_id"; "storage_key"] ∧
  validate_links NoArtworkColumn.data = Raise (KeyError "artwork_id").
Proof. split; vm_compute; reflexivity. Qed.

(** C8, as the code has it.  The warning of the artwork to primary image
    relationship carries the values of [image_primary_id] that are set and
    do not resolve, and it carries the missing value as well: an artwork
    without primary image is reported (always when the column is numeric,
    each such artwork by a [nan] of its own, and whenever no [image_id] is
    missing). *)
Theorem validate_links_primary_image data a3 b3 ws :
  has_key_columns data →
  column data "artwork" "image_primary_id" = Ok a3 →
  column data "image_asset" "image_id" = Ok b3 →
  validate_links data = Ok ws →
  filter (λ w, w_text w = "artwork.image_primary_id missing in image_asset.image_id: ") ws =
    (if decide (missing a3 b3 ≠ ∅)
     then [{| w_text := "artwork.image_primary_id missing in image_asset.image_id: ";
              w_values := missing a3 b3 |}]
     else []) ∧
  (∀ c, c ≠ NaN → Obj c ∈ missing a3 b3 ↔ c ∈ a3 ∧ c ∉ b3) ∧
  (∀ i, a3 !! i = Some NaN → numeric_dtype a3 = true → FloatNan i ∈ missing a3 b3) ∧
  (NaN ∈ a3 → numeric_dtype a3 = false → NaN ∉ b3 → Obj NaN ∈ missing a3 b3) ∧
  (NaN ∈ a3 → NaN ∉ b3 → missing a3 b3 ≠ ∅).
Proof.
  intros Hcols Ha Hb Hws.
  destruct (has_key_columns_Ok data Hcols)
    as (a1 & b1 & a2 & b2 & a3' & b3' & a4 & H1 & H2 & H3 & H4 & H5 & H6 & H7).
  assert (a3' = a3) as -> by congruence. assert (b3' = b3) as -> by congruence.
  rewrite (validate_links_eq data _ _ _ _ _ _ _ H1 H2 H3 H4 H5 H6 H7) in Hws.
  injection Hws as <-.
  split_and!.
  - unfold relationships, violation_warning. cbn [omap list_omap fst snd].
    rewrite (violations_eq _ _ _ _ _ _ _ _ H5 H6).
    repeat (destruct (decide _)); cbn [app];
      rewrite ?filter_cons, ?filter_nil; cbn [w_text];
      repeat (first [rewrite decide_True by done | rewrite decide_False by done]);
      done.
  - intros c Hc. by apply Obj_elem_of_missing.
  - intros i HN Hnum. by apply FloatNan_elem_of_missing.
  - intros HN Hnum HNb. apply Obj_NaN_elem_of_missing. split; [done|]. by intros [_ ?].
  - intros HN HNb Hempty. destruct (numeric_dtype a3) eqn:Hnum.
    + apply list_elem_of_lookup_1 in HN as [i Hi].
      assert (FloatNan i ∈ missing a3 b3) as Hin by by apply FloatNan_elem_of_missing.
      rewrite Hempty in Hin. by apply not_elem_of_empty in Hin.
    + assert (Obj NaN ∈ missing a3 b3) as Hin.
      { apply Obj_NaN_elem_of_missing. split; [done|]. by intros [_ ?]. }
      rewrite Hempty in Hin. by apply not_elem_of_empty in Hin.
Qed.

Lemma validate_links_primary_image_witness :
  (has_key_columns UnsetImage.data ∧
   column UnsetImage.data "artwork" "image_primary_id" = Ok [Num 100; NaN] ∧
   column UnsetImage.data "image_asset" "image_id" = Ok [Num 100] ∧
   validate_links UnsetImage.data =
     Ok [{| w_text := "artwork.image_primary_id missing in image_asset.image_id: ";
            w_values := {[ FloatNan 1 ]} |}]) ∧
  (NaN ∈ [Num 100; NaN] → NaN ∉ [Num 100] → missing [Num 100; NaN] [Num 100] ≠ ∅).
Proof.
  assert (has_key_columns UnsetImage.data) as H0
    by (repeat constructor; eexists; vm_compute; reflexivity).
  split.
  - split_and!; [exact H0|by_compute..].
  - exact (proj2 (proj2 (proj2 (proj2 (validate_links_primary_image UnsetImage.data _ _ _ H0
             ltac:(by_compute) ltac:(by_compute) ltac:(by_compute)))))).
Defined.

(** C8 fails as stated: artwork 11 has no primary image and the
    validator reports it. *)
Lemma validate_links_reports_unset_image :
  column UnsetImage.data "artwork" "image_primary_id" = Ok [Num 100; NaN] ∧
  column UnsetImage.data "image_asset" "image_id" = Ok [Num 100] ∧
  validate_links UnsetImage.data =
    Ok [{| w_text := "artwork.image_primary_id missing in image_asset.image_id: ";
           w_values := {[ FloatNan 1 ]} |}].
Proof. split_and!; vm_compute; reflexivity. Qed.

(** * [main] *)

Section run.
Context {platform : Platform}.

Example main_sample :
  let '(r, w) := main (SampleWorld.fresh None) in
  r = Ok () ∧
  files w !! enriched_path = Some (to_lines Sample.enriched) ∧
  files w !! summary_path =
    Some [Header summary_columns; Data [Num 1; Str "A"; Num 2; Num 1200; Num 600]].
Proof. vm_compute. done. Qed.

Lemma same_disk_refl w : same_disk w w.
Proof. done. Qed.

Lemma same_disk_trans w1 w2 w3 : same_disk w1 w2 → same_disk w2 w3 → same_disk w1 w3.
Proof. unfold same_disk. intros (-> & -> & ->) (-> & -> & ->). done. Qed.

Lemma io_bind_eq {A B} (m : io A) (f : A → io B) (w : world) :
  (m ≫= f) w = match m w with
               | (Ok a, w') => f a w'
               | (Raise e, w') => (Raise e, w')
               end.
Proof. reflexivity. Qed.

Lemma print_spec msg w : ∃ w', print msg w = (Ok (), w') ∧ same_disk w w'.
Proof. eexists. split; [reflexivity|done]. Qed.

Lemma for_print_spec {A} (xs : list A) (f : A → list piece) w :
  ∃ w', for_ xs (λ x, print (f x)) w = (Ok (), w') ∧ same_disk w w'.
Proof.
  revert w. induction xs as [|x xs IH]; intros w; cbn [for_].
  - eexists. split; [reflexivity|done].
  - rewrite io_bind_eq. destruct (print_spec (f x) w) as (w1 & -> & Hd1).
    destruct (IH w1) as (w' & -> & Hd).
    eexists. split; [reflexivity|]. by eapply same_disk_trans.
Qed.

Lemma read_csv_spec p w :
  (read_csv p w).2 = w ∧
  ∀ w2, files w2 !! p = files w !! p → (read_csv p w2).1 = (read_csv p w).1.
Proof.
  unfold read_csv. split.
  - by destruct (files w !! p) as [[|[]]|].
  - intros w2 ->. by destruct (files w !! p) as [[|[]]|].
Qed.

Lemma load_loop_same_disk dir items data w :
  same_disk w (load_loop dir items data w).2.
Proof.
  revert data w. induction items as [|[key fname] items IH]; intros data w; simpl; [done|].
  rewrite io_bind_eq. pose proof (read_csv_spec (path_join dir fname) w) as [Hw _].
  destruct (read_csv (path_join dir fname) w) as [[df|e] w1]; simpl in *; subst; [|done].
  rewrite io_bind_eq. simpl. eapply same_disk_trans; [|apply IH]. done.
Qed.

Lemma load_loop_agree dir items data w1 w2 :
  (∀ kf, kf ∈ items → files w1 !! path_join dir kf.2 = files w2 !! path_join dir kf.2) →
  (load_loop dir items data w1).1 = (load_loop dir items data w2).1.
Proof.
  revert data w1 w2. induction items as [|[key fname] items IH]; intros data w1 w2 Hag;
    simpl; [done|].
  rewrite !io_bind_eq.
  pose proof (read_csv_spec (path_join dir fname) w1) as [Hw1 _].
  pose proof (read_csv_spec (path_join dir fname) w2) as [Hw2 Hr].
  specialize (Hr w1 (Hag (key, fname) ltac:(left))).
  destruct (read_csv (path_join dir fname) w1) as [r1 w1'].
  destruct (read_csv (path_join dir fname) w2) as [r2 w2'].
  simpl in *. subst. destruct r2 as [df|e]; [|done].
  rewrite !io_bind_eq. simpl. apply IH. intros kf Hkf. simpl. apply Hag. by right.
Qed.

Lemma load_data_same_disk w : same_disk w (load_data "." w).2.
Proof. apply load_loop_same_disk. Qed.

Lemma load_data_agree w1 w2 :
  inputs_agree w1 w2 → (load_data "." w1).1 = (load_data "." w2).1.
Proof.
  intros Hag. apply load_loop_agree. intros kf Hkf. apply Hag.
  unfold input_paths. apply list_elem_of_fmap. eauto.
Qed.

Lemma device_write_spec p upd w :
  match write_budget w with
  | Some O => device_write p upd w = (Raise (OSError p), w)
  | b => ∃ w', device_write p upd w = (Ok (), w') ∧
               files w' = upd (files w) ∧ dirs w' = dirs w ∧
               stdout w' = stdout w ∧ write_budget w' = Nat.pred <$> b
  end.
Proof.
  unfold device_write. destruct (write_budget w) as [[|n]|]; [done|..];
    eexists; split_and!; done.
Qed.

Lemma write_lines_spec p (ls : list line) : ∀ pre w,
  files w !! p = Some pre →
  ∃ r w', for_ ls (write_line p) w = (r, w') ∧
    (∀ q, q ≠ p → files w' !! q = files w !! q) ∧
    match r with
    | Ok _ => files w' !! p = Some (pre ++ ls)
    | Raise e => e = OSError p ∧
        ∃ ls1, files w' !! p = Some (pre ++ ls1) ∧ ls1 `prefix_of` ls ∧ ls1 ≠ ls
    end ∧
    (write_budget w = None → r = Ok () ∧ write_budget w' = None).
Proof.
  induction ls as [|l ls IH]; intros pre w Hpre; cbn [for_].
  - exists (Ok ()), w. split4; [done|done|by rewrite app_nil_r|done].
  - rewrite io_bind_eq. unfold write_line at 1.
    pose proof (device_write_spec p
      (λ fs, <[p := default [] (fs !! p) ++ [l]]> fs) w) as Hd.
    destruct (write_budget w) as [[|n]|] eqn:Hb.
    + rewrite Hd. exists (Raise (OSError p)), w. split4; [done|done| |done].
      split; [done|]. exists []. rewrite app_nil_r. split; [done|]. split; [|done].
      apply prefix_nil.
    + destruct Hd as (w1 & -> & Hf & _ & _ & Hb1).
      assert (files w1 !! p = Some (pre ++ [l])) as Hp1.
      { by rewrite Hf, lookup_insert_eq, Hpre. }
      destruct (IH _ _ Hp1) as (r & w' & -> & Hoth & Hres & _).
      exists r, w'. split4; [done| | |done].
      * intros q Hq. rewrite Hoth by done. by rewrite Hf, lookup_insert_ne.
      * destruct r as [[]|e].
        -- by rewrite <- (assoc_L (++)) in Hres.
        -- destruct Hres as (-> & ls1 & Hl1 & Hpf & Hne). split; [done|].
           exists (l :: ls1). rewrite <- (assoc_L (++)) in Hl1.
           split; [done|]. split; [by apply prefix_cons|congruence].
    + destruct Hd as (w1 & -> & Hf & _ & _ & Hb1).
      assert (files w1 !! p = Some (pre ++ [l])) as Hp1.
      { by rewrite Hf, lookup_insert_eq, Hpre. }
      destruct (IH _ _ Hp1) as (r & w' & -> & Hoth & Hres & Hnone).
      destruct (Hnone Hb1) as [-> Hb'].
      exists (Ok ()), w'. split4; [done| | |done].
      * intros q Hq. rewrite Hoth by done. by rewrite Hf, lookup_insert_ne.
      * by rewrite <- (assoc_L (++)) in Hres.
Qed.

Lemma to_csv_spec df p w :
  ∃ r w', to_csv df p w = (r, w') ∧
    (∀ q, q ≠ p → files w' !! q = files w !! q) ∧
    match r with
    | Ok _ => files w' !! p = Some (to_lines df)
    | Raise e => e = OSError p ∧
        (files w' !! p = files w !! p ∨
         ∃ ls, files w' !! p = Some ls ∧ ls `prefix_of` to_lines df ∧ ls ≠ to_lines df)
    end ∧
    (write_budget w = None → r = Ok () ∧ write_budget w' = None).
Proof.
  unfold to_csv. rewrite io_bind_eq. unfold open_w.
  pose proof (device_write_spec p (λ fs, <[p := []]> fs) w) as Hd.
  destruct (write_budget w) as [[|n]|] eqn:Hb.
  - rewrite Hd. exists (Raise (OSError p)), w. split4; [done|done| |done]. auto.
  - destruct Hd as (w1 & -> & Hf & _ & _ & Hb1).
    assert (files w1 !! p = Some []) as Hp1 by by rewrite Hf, lookup_insert_eq.
    destruct (write_lines_spec p (to_lines df) _ _ Hp1) as (r & w' & -> & Hoth & Hres & _).
    exists r, w'. split4; [done| | |done].
    + intros q Hq. rewrite Hoth by done. by rewrite Hf, lookup_insert_ne.
    + destruct r as [[]|e]; [done|]. destruct Hres as (-> & ls1 & ? & ? & ?). eauto 10.
  - destruct Hd as (w1 & -> & Hf & _ & _ & Hb1).
    assert (files w1 !! p = Some []) as Hp1 by by rewrite Hf, lookup_insert_eq.
    destruct (write_lines_spec p (to_lines df) _ _ Hp1) as (r & w' & -> & Hoth & Hres & Hn).
    destruct (Hn Hb1) as [-> Hb'].
    exists (Ok ()), w'. split4; [done| |done|done].
    intros q Hq. rewrite Hoth by done. by rewrite Hf, lookup_insert_ne.
Qed.

Lemma makedirs_spec p w :
  files w !! p = None →
  ∃ w', makedirs p w = (Ok (), w') ∧ files w' = files w ∧ write_budget w' = write_budget w.
Proof. intros H. unfold makedirs. rewrite H. eexists. split_and!; done. Qed.

Lemma output_paths_ne :
  enriched_path ≠ summary_path ∧ "out" ≠ enriched_path ∧ "out" ≠ summary_path ∧
  Forall (λ p, p ≠ enriched_path ∧ p ≠ summary_path) input_paths.
Proof. split4; [done..|]. repeat constructor; done. Qed.

Lemma main_after_compute w data w1 warnings merged_df summary_df :
  load_data "." w = (Ok data, w1) →
  validate_links data = Ok warnings →
  merge_data data = Ok merged_df →
  analyze_data merged_df = Ok summary_df →
  ∃ w2, same_disk w w2 ∧ main w = write_outputs merged_df summary_df w2.
Proof.
  intros Hload Hval Hmerge Han. unfold main.
  rewrite io_bind_eq, Hload. rewrite io_bind_eq. unfold lift at 1. rewrite Hval.
  rewrite io_bind_eq.
  assert (∃ w2, (if bool_decide (warnings ≠ [])
                 then print [Text "Validation Warnings:"] ≫= λ _,
                      for_ warnings (λ w, print [Text "-"; Warn w])
                 else print [Text "All key relationships validated."]) w1 = (Ok (), w2) ∧
                same_disk w1 w2) as (w2 & -> & Hd).
  { destruct (bool_decide (warnings ≠ [])).
    - rewrite io_bind_eq. destruct (print_spec [Text "Validation Warnings:"] w1) as (wa & -> & Ha).
      destruct (for_print_spec warnings (λ w, [Text "-"; Warn w]) wa) as (wb & -> & Hb).
      eexists. split; [done|]. by eapply same_disk_trans.
    - apply print_spec. }
  exists w2. split.
  - eapply same_disk_trans; [|exact Hd].
    pose proof (load_data_same_disk w) as H. by rewrite Hload in H.
  - rewrite io_bind_eq. unfold lift at 1. rewrite Hmerge.
    rewrite io_bind_eq. unfold lift at 1. rewrite Han. reflexivity.
Qed.

Lemma write_outputs_spec merged_df summary_df w :
  files w !! "out" = None →
  ∃ r w', write_outputs merged_df summary_df w = (r, w') ∧
    (∀ q, q ≠ enriched_path → q ≠ summary_path → files w' !! q = files w !! q) ∧
    match r with
    | Ok _ =>
        files w' !! enriched_path = Some (to_lines merged_df) ∧
        files w' !! summary_path = Some (to_lines summary_df)
    | Raise e =>
        (e = OSError enriched_path ∧
         (files w' !! enriched_path = files w !! enriched_path ∨
          partial_of merged_df (files w' !! enriched_path)) ∧
         files w' !! summary_path = files w !! summary_path) ∨
        (e = OSError summary_path ∧
         files w' !! enriched_path = Some (to_lines merged_df) ∧
         (files w' !! summary_path = files w !! summary_path ∨
          partial_of summary_df (files w' !! summary_path)))
    end ∧
    (write_budget w = None → r = Ok ()).
Proof.
  intros Hout. destruct output_paths_ne as (Hne & _ & _ & _).
  unfold write_outputs. cbn zeta. fold enriched_path summary_path.
  rewrite io_bind_eq. destruct (makedirs_spec "out" w Hout) as (w0 & -> & Hf0 & Hb0).
  rewrite io_bind_eq.
  destruct (to_csv_spec merged_df enriched_path w0) as (r1 & w1 & -> & Hoth1 & Hres1 & Hn1).
  destruct r1 as [[]|e1].
  - rewrite io_bind_eq.
    destruct (to_csv_spec summary_df summary_path w1) as (r2 & w2 & -> & Hoth2 & Hres2 & Hn2).
    destruct r2 as [[]|e2].
    + rewrite io_bind_eq. destruct (print_spec [Text "\nSummary by artist:"] w2) as (wa & -> & Ha).
      rewrite io_bind_eq. destruct (print_spec [Frame summary_df] wa) as (wb & -> & Hb).
      rewrite io_bind_eq.
      destruct (print_spec [Text "\nSaved enriched data to "; Text enriched_path] wb)
        as (wc & -> & Hc).
      destruct (print_spec [Text "Saved summary to "; Text summary_path] wc) as (wd & -> & Hd).
      assert (files wd = files w2) as Hfd.
      { destruct Ha as [Ha _], Hb as [Hb _], Hc as [Hc _], Hd as [Hd _]. congruence. }
      exists (Ok ()), wd. rewrite Hfd. split4; [done| | |done].
      * intros q Hq1 Hq2. by rewrite Hoth2, Hoth1, Hf0.
      * split; [|done]. by rewrite Hoth2.
    + exists (Raise e2), w2. split4; [done| | |].
      * intros q Hq1 Hq2. by rewrite Hoth2, Hoth1, Hf0.
      * right. destruct Hres2 as [-> Hres2]. split; [done|]. split; [by rewrite Hoth2|].
        destruct Hres2 as [Hu|Hp]; [left|right; exact Hp].
        by rewrite Hu, Hoth1, Hf0.
      * intros Hb. rewrite <- Hb0 in Hb. destruct (Hn1 Hb) as [_ Hb1].
        by destruct (Hn2 Hb1).
  - exists (Raise e1), w1. split4; [done| | |].
    + intros q Hq1 Hq2. by rewrite Hoth1, Hf0.
    + left. destruct Hres1 as [-> Hres1]. split; [done|]. split.
      * destruct Hres1 as [Hu|Hp]; [left|right; exact Hp]. by rewrite Hu, Hf0.
      * by rewrite Hoth1, Hf0.
    + intros Hb. rewrite <- Hb0 in Hb. by destruct (Hn1 Hb).
Qed.

Lemma main_Ok w w' :
  main w = (Ok (), w') →
  ∃ data merged_df summary_df,
    (load_data "." w).1 = Ok data ∧
    merge_data data = Ok merged_df ∧
    analyze_data merged_df = Ok summary_df ∧
    files w' !! enriched_path = Some (to_lines merged_df) ∧
    files w' !! summary_path = Some (to_lines summary_df) ∧
    (∀ q, q ≠ enriched_path → q ≠ summary_path → files w' !! q = files w !! q).
Proof.
  intros Hmain.
  destruct (load_data "." w) as [[data|e] w1] eqn:Hload; cycle 1.
  { unfold main in Hmain. by rewrite io_bind_eq, Hload in Hmain. }
  destruct (validate_links data) as [warnings|e] eqn:Hval; cycle 1.
  { unfold main in Hmain. rewrite io_bind_eq, Hload, io_bind_eq in Hmain.
    unfold lift at 1 in Hmain. by rewrite Hval in Hmain. }
  destruct (merge_data data) as [merged_df|e] eqn:Hmerge; cycle 1.
  { unfold main in Hmain. rewrite io_bind_eq, Hload, io_bind_eq in Hmain.
    unfold lift at 1 in Hmain. rewrite Hval, io_bind_eq in Hmain.
    destruct (_ w1) as [[[]|?] ?]; [|done].
    rewrite io_bind_eq in Hmain. unfold lift at 1 in Hmain. by rewrite Hmerge in Hmain. }
  destruct (analyze_data merged_df) as [summary_df|e] eqn:Han; cycle 1.
  { unfold main in Hmain. rewrite io_bind_eq, Hload, io_bind_eq in Hmain.
    unfold lift at 1 in Hmain. rewrite Hval, io_bind_eq in Hmain.
    destruct (_ w1) as [[[]|?] ?]; [|done].
    rewrite io_bind_eq in Hmain. unfold lift at 1 in Hmain. rewrite Hmerge in Hmain.
    rewrite io_bind_eq in Hmain. unfold lift at 1 in Hmain. by rewrite Han in Hmain. }
  destruct (main_after_compute _ _ _ _ _ _ Hload Hval Hmerge Han) as (w2 & (Hf & _ & Hb) & Heq).
  rewrite Heq in Hmain.
  destruct (files w2 !! "out") as [x|] eqn:Hout.
  { unfold write_outputs in Hmain. cbn zeta in Hmain. rewrite io_bind_eq in Hmain.
    unfold makedirs at 1 in Hmain. by rewrite Hout in Hmain. }
  destruct (write_outputs_spec merged_df summary_df w2 Hout) as (r' & w'' & Hw & Hoth & Hres & _).
  rewrite Hw in Hmain. injection Hmain as -> ->.
  destruct Hres as [He Hs]. exists data, merged_df, summary_df.
  split_and!; try done. intros q Hq1 Hq2. by rewrite Hoth, Hf.
Qed.

(** C6, as the code has it.  Once the frames are computed, a run without
    write failure replaces both artifacts; a write failure ends the run
    with the error.  When it hits the enriched artifact, that file is as
    before (it could not be opened) or holds a proper part of the new
    lines, and the summary is as before; when it hits the summary, the
    enriched artifact is replaced and the summary is as before or holds a
    proper part of its new lines. *)
Theorem main_write_outcome w data w1 warnings merged_df summary_df r w' :
  load_data "." w = (Ok data, w1) →
  validate_links data = Ok warnings →
  merge_data data = Ok merged_df →
  analyze_data merged_df = Ok summary_df →
  files w !! "out" = None →
  main w = (r, w') →
  (write_budget w = None → r = Ok ()) ∧
  match r with
  | Ok _ =>
      files w' !! enriched_path = Some (to_lines merged_df) ∧
      files w' !! summary_path = Some (to_lines summary_df)
  | Raise e =>
      (e = OSError enriched_path ∧
       (files w' !! enriched_path = files w !! enriched_path ∨
        partial_of merged_df (files w' !! enriched_path)) ∧
       files w' !! summary_path = files w !! summary_path) ∨
      (e = OSError summary_path ∧
       files w' !! enriched_path = Some (to_lines merged_df) ∧
       (files w' !! summary_path = files w !! summary_path ∨
        partial_of summary_df (files w' !! summary_path)))
  end.
Proof.
  intros Hload Hval Hmerge Han Hout Hmain.
  destruct (main_after_compute _ _ _ _ _ _ Hload Hval Hmerge Han) as (w2 & (Hf & _ & Hb) & Heq).
  rewrite Heq in Hmain. rewrite <- Hf in Hout.
  destruct (write_outputs_spec merged_df summary_df w2 Hout) as (r' & w'' & Hw & _ & Hres & Hn).
  rewrite Hw in Hmain. injection Hmain as -> ->.
  rewrite Hf, Hb in *. done.
Qed.

(** A write failure after the header of the enriched artifact, on every
    platform. *)
Lemma partial_artifact :
  (main (SampleWorld.rerun (Some 2))).1 = Raise (OSError enriched_path) ∧
  files (SampleWorld.rerun (Some 2)) !! enriched_path = Some SampleWorld.prior_enriched ∧
  files (main (SampleWorld.rerun (Some 2))).2 !! enriched_path =
    Some [Header (columns Sample.enriched)] ∧
  files (main (SampleWorld.rerun None)).2 !! enriched_path =
    Some (to_lines Sample.enriched) ∧
  [Header (columns Sample.enriched)] ≠ SampleWorld.prior_enriched ∧
  [Header (columns Sample.enriched)] ≠ to_lines Sample.enriched.
Proof. split_and!; [vm_compute; reflexivity..|done|done]. Qed.

(** C7.  Two runs that succeed on worlds with the same five input files
    leave the same enriched artifact and the same summary artifact,
    whatever else the worlds hold. *)
Theorem main_deterministic w1 w2 w1' w2' :
  inputs_agree w1 w2 →
  main w1 = (Ok (), w1') →
  main w2 = (Ok (), w2') →
  files w1' !! enriched_path = files w2' !! enriched_path ∧
  files w1' !! summary_path = files w2' !! summary_path ∧
  is_Some (files w1' !! enriched_path) ∧
  is_Some (files w1' !! summary_path).
Proof.
  intros Hag (d1 & m1 & s1 & Hl1 & Hm1 & Ha1 & He1 & Hs1 & _)%main_Ok
    (d2 & m2 & s2 & Hl2 & Hm2 & Ha2 & He2 & Hs2 & _)%main_Ok.
  rewrite (load_data_agree w1 w2 Hag), Hl2 in Hl1.
  assert (d1 = d2) as -> by congruence.
  assert (m1 = m2) as -> by congruence.
  assert (s1 = s2) as -> by congruence.
  rewrite He1, He2, Hs1, Hs2. split_and!; [done|done|by eexists|by eexists].
Qed.

(** A second run on what the first one left changes no file. *)
Lemma main_idempotent w w' w'' :
  main w = (Ok (), w') →
  main w' = (Ok (), w'') →
  files w'' = files w'.
Proof.
  intros H1 H2.
  pose proof H1 as (d1 & m1 & s1 & Hl1 & Hm1 & Ha1 & He1 & Hs1 & Hoth1)%main_Ok.
  pose proof H2 as (d2 & m2 & s2 & Hl2 & Hm2 & Ha2 & He2 & Hs2 & Hoth2)%main_Ok.
  assert (inputs_agree w w') as Hag.
  { intros p Hp. destruct output_paths_ne as (_ & _ & _ & Hin).
    rewrite Forall_forall in Hin. destruct (Hin p Hp). by rewrite Hoth1. }
  rewrite (load_data_agree w w' Hag), Hl2 in Hl1.
  assert (d1 = d2) as -> by congruence.
  assert (m1 = m2) as -> by congruence.
  assert (s1 = s2) as -> by congruence.
  apply map_eq. intros q.
  destruct (decide (q = enriched_path)) as [->|Hq1]; [congruence|].
  destruct (decide (q = summary_path)) as [->|Hq2]; [congruence|].
  by apply Hoth2.
Qed.

End run.

Section run_examples.
#[local] Existing Instance exact_platform.

Lemma main_write_outcome_witness :
  (load_data "." (SampleWorld.rerun (Some 2)) =
     (Ok Sample.data, after_load (SampleWorld.rerun (Some 2))) ∧
   validate_links Sample.data = Ok [] ∧
   merge_data Sample.data = Ok Sample.enriched ∧
   analyze_data Sample.enriched = Ok sample_summary ∧
   files (SampleWorld.rerun (Some 2)) !! "out" = None ∧
   main (SampleWorld.rerun (Some 2)) =
     (Raise (OSError enriched_path), (main (SampleWorld.rerun (Some 2))).2)) ∧
  ((OSError enriched_path = OSError enriched_path ∧
    (files (main (SampleWorld.rerun (Some 2))).2 !! enriched_path =
       files (SampleWorld.rerun (Some 2)) !! enriched_path ∨
     partial_of Sample.enriched (files (main (SampleWorld.rerun (Some 2))).2 !! enriched_path)) ∧
    files (main (SampleWorld.rerun (Some 2))).2 !! summary_path =
      files (SampleWorld.rerun (Some 2)) !! summary_path) ∨
   (OSError enriched_path = OSError summary_path ∧
    files (main (SampleWorld.rerun (Some 2))).2 !! enriched_path =
      Some (to_lines Sample.enriched) ∧
    (files (main (SampleWorld.rerun (Some 2))).2 !! summary_path =
       files (SampleWorld.rerun (Some 2)) !! summary_path ∨
     partial_of sample_summary (files (main (SampleWorld.rerun (Some 2))).2 !! summary_path)))).
Proof.
  split.
  - split_and!; by_compute.
  - exact (proj2 (main_write_outcome (SampleWorld.rerun (Some 2)) Sample.data
             (after_load (SampleWorld.rerun (Some 2))) [] Sample.enriched sample_summary
             (Raise (OSError enriched_path)) (main (SampleWorld.rerun (Some 2))).2
             ltac:(by_compute) ltac:(by_compute) ltac:(by_compute) ltac:(by_compute)
             ltac:(by_compute) ltac:(by_compute))).
Defined.

Lemma inputs_agree_sample : inputs_agree (SampleWorld.fresh None) (SampleWorld.rerun None).
Proof.
  intros p Hp.
  repeat (apply elem_of_cons in Hp as [->|Hp]; [by_compute|]).
  by apply elem_of_nil in Hp.
Qed.

Lemma main_deterministic_witness :
  (inputs_agree (SampleWorld.fresh None) (SampleWorld.rerun None) ∧
   main (SampleWorld.fresh None) = (Ok (), (main (SampleWorld.fresh None)).2) ∧
   main (SampleWorld.rerun None) = (Ok (), (main (SampleWorld.rerun None)).2)) ∧
  files (main (SampleWorld.fresh None)).2 !! enriched_path =
    files (main (SampleWorld.rerun None)).2 !! enriched_path.
Proof.
  split.
  - split_and!; [exact inputs_agree_sample|by_compute..].
  - exact (proj1 (main_deterministic (SampleWorld.fresh None) (SampleWorld.rerun None)
             (main (SampleWorld.fresh None)).2 (main (SampleWorld.rerun None)).2
             inputs_agree_sample ltac:(by_compute) ltac:(by_compute))).
Defined.

(** C6 fails as stated: the device fails after the header of the enriched
    artifact is written; the run ends with the error and the file holds
    the header alone, neither the prior artifact nor the new one. *)
Lemma main_partial_artifact :
  (main (SampleWorld.rerun (Some 2))).1 = Raise (OSError enriched_path) ∧
  files (SampleWorld.rerun (Some 2)) !! enriched_path = Some SampleWorld.prior_enriched ∧
  files (main (SampleWorld.rerun (Some 2))).2 !! enriched_path =
    Some [Header (columns Sample.enriched)] ∧
  files (main (SampleWorld.rerun None)).2 !! enriched_path =
    Some (to_lines Sample.enriched) ∧
  [Header (columns Sample.enriched)] ≠ SampleWorld.prior_enriched ∧
  [Header (columns Sample.enriched)] ≠ to_lines Sample.enriched.
Proof. exact partial_artifact. Qed.

End run_examples.
